(** * SocketInsight: the reconnecting WebSocket wrapper of [src/index.js]

    The class [SocketInsight] owns one [ws] transport at a time, re-dispatches
    the transport's four events to user callbacks, and re-opens the transport
    after an abnormal closure while its retry counter is positive.

    The embedding keeps the shape of the source: every method of the class is
    a computation in a small monad that threads the instance and its
    environment (the transports created so far and the pending timers),
    records the observable calls (console, transport, timer, user callbacks)
    and may raise a JavaScript exception. *)

From Stdlib Require Import ZArith String List Lia.
From stdpp Require Import base option list gmap strings pretty.

(** ** Values exchanged with the caller and with the transport *)

(** A user callback is a JavaScript function; only its identity matters
    here.  A function is always truthy, so the guards
    [if (this.listeners.open)] reduce to "a callback is stored". *)
Definition callback := nat.

(** [CloseEvent]: the fields [handleClose] reads. *)
Record CloseEvent := mkCloseEvent { code : Z; reason : string }.

(** [MessageEvent]: the field [handleMessage] reads. *)
Record MessageEvent := mkMessageEvent { data : string }.

(** [ErrorEvent]: the field [handleError] reads. *)
Record ErrorEvent := mkErrorEvent { message : string }.

(** Arguments handed to user callbacks. *)
Inductive Value :=
| VNum (n : Z)
| VStr (s : string)
| VError (e : ErrorEvent).

(** [WebSocket.readyState]. *)
Inductive ReadyState := CONNECTING | OPEN | CLOSING | CLOSED.

Definition readyState_code (r : ReadyState) : Z :=
  match r with
  | CONNECTING => 0
  | OPEN => 1
  | CLOSING => 2
  | CLOSED => 3
  end.

#[global] Instance ReadyState_eq_dec : EqDecision ReadyState.
Proof. solve_decision. Defined.

(** Observable calls, in program order. *)
Inductive Effect :=
| ConsoleLog (line : string)
| ConsoleError (line : string)
| NewWebSocket (h : nat) (address : string)
| AddEventListener (h : nat) (name : string)
| SocketSend (h : nat) (msg : string)
| SocketClose (h : nat) (c : Z) (why : string)
| SetTimeout (delay : Z)
| Invoke (f : callback) (args : list Value).

(** JavaScript exceptions the modelled calls can raise. *)
Inductive Exn :=
| TypeError (what : string)
| TransportError (what : string).

(** ** The instance and its environment *)

(** The fields of a [SocketInsight] object.  [socket] is [None] until
    [connect] has assigned it ([undefined] in the source). *)
Record SocketInsight := mkSocketInsight {
  url : string;
  retryAttempts : Z;
  retryDelay : Z;
  listeners : gmap string callback;
  socket : option nat
}.

Definition set_retryAttempts (n : Z) (s : SocketInsight) : SocketInsight :=
  mkSocketInsight (url s) n (retryDelay s) (listeners s) (socket s).

Definition set_listeners (l : gmap string callback) (s : SocketInsight)
  : SocketInsight :=
  mkSocketInsight (url s) (retryAttempts s) (retryDelay s) l (socket s).

Definition set_socket (h : nat) (s : SocketInsight) : SocketInsight :=
  mkSocketInsight (url s) (retryAttempts s) (retryDelay s) (listeners s)
    (Some h).

(** The instance together with what it lives in: [sockets] holds the ready
    state of every transport created by [connect], indexed by handle, and
    [timers] holds the delays of the pending [setTimeout] calls, oldest
    first.  Every timer carries the same closure, [retryTimer] below. *)
Record World := mkWorld {
  this : SocketInsight;
  sockets : list ReadyState;
  timers : list Z
}.

Definition set_this (s : SocketInsight) (w : World) : World :=
  mkWorld s (sockets w) (timers w).

Definition set_sockets (l : list ReadyState) (w : World) : World :=
  mkWorld (this w) l (timers w).

Definition set_timers (t : list Z) (w : World) : World :=
  mkWorld (this w) (sockets w) t.

(** ** The monad of methods *)

Record Result (A : Type) := mkResult {
  outcome : Exn + A;
  after : World;
  trace : list Effect
}.
Arguments mkResult {A} _ _ _.
Arguments outcome {A} _.
Arguments after {A} _.
Arguments trace {A} _.

Definition M (A : Type) : Type := World → Result A.

#[global] Instance M_ret : MRet M := λ A a w, mkResult (inr a) w [].

#[global] Instance M_bind : MBind M := λ A B f m w,
  let r := m w in
  match outcome r with
  | inl e => mkResult (inl e) (after r) (trace r)
  | inr a =>
      let r' := f a (after r) in
      mkResult (outcome r') (after r') (trace r ++ trace r')
  end.

Definition emit (e : Effect) : M unit := λ w, mkResult (inr ()) w [e].
Definition get_this : M SocketInsight := λ w, mkResult (inr (this w)) w [].
Definition modify_this (f : SocketInsight → SocketInsight) : M unit :=
  λ w, mkResult (inr ()) (set_this (f (this w)) w) [].

Definition console_log (line : string) : M unit := emit (ConsoleLog line).
Definition console_error (line : string) : M unit := emit (ConsoleError line).

(** ** The transport and the timer, as the wrapper uses them *)

(** [new WebSocket(url)]: a fresh handle in state CONNECTING.  The
    transport's constructor throws a SyntaxError for an address that is not
    a valid URL, and then no instance comes to exist; this development is
    about the instances that exist, so the address is taken to be one the
    transport accepts (at construction, and hence at every reconnect, which
    passes the same address). *)
Definition new_WebSocket (address : string) : M nat := λ w,
  let h := length (sockets w) in
  mkResult (inr h) (set_sockets (sockets w ++ [CONNECTING]) w)
    [NewWebSocket h address].

Definition addEventListener (h : nat) (name : string) : M unit :=
  emit (AddEventListener h name).

(** [this.socket.readyState]; reading a property of [undefined] throws. *)
Definition socket_readyState (s : SocketInsight) : M ReadyState := λ w,
  match socket s with
  | Some h =>
      match sockets w !! h with
      | Some r => mkResult (inr r) w []
      | None => mkResult (inl (TypeError "readyState")) w []
      end
  | None => mkResult (inl (TypeError "readyState")) w []
  end.

(** [this.socket.send(message)]: the transport refuses to send while it is
    still connecting and throws; in every other state the call returns. *)
Definition socket_send (s : SocketInsight) (msg : string) : M unit := λ w,
  match socket s with
  | Some h =>
      match sockets w !! h with
      | Some CONNECTING =>
          mkResult (inl (TransportError "WebSocket is not open")) w []
      | Some _ => mkResult (inr ()) w [SocketSend h msg]
      | None => mkResult (inl (TypeError "send")) w []
      end
  | None => mkResult (inl (TypeError "send")) w []
  end.

(** [this.socket.close(code, reason)]: a transport that has not reported its
    closure starts closing; a closed one stays closed. *)
Definition socket_close (s : SocketInsight) (c : Z) (why : string) : M unit :=
  λ w,
  match socket s with
  | Some h =>
      match sockets w !! h with
      | Some r =>
          mkResult (inr ())
            (set_sockets
               (<[h := if decide (r = CLOSED) then CLOSED else CLOSING]>
                  (sockets w)) w)
            [SocketClose h c why]
      | None => mkResult (inl (TypeError "close")) w []
      end
  | None => mkResult (inl (TypeError "close")) w []
  end.

(** [setTimeout(() => {...}, delay)]. *)
Definition setTimeout (delay : Z) : M unit := λ w,
  mkResult (inr ()) (set_timers (timers w ++ [delay]) w) [SetTimeout delay].

(** Calling a stored callback. *)
Definition call (f : callback) (args : list Value) : M unit :=
  emit (Invoke f args).

(** ** Numbers

    A JavaScript number is an IEEE-754 double.  The retry counter and the
    delay are doubles holding integers, modelled by the integer they hold.
    Comparisons are exact on them; [this.retryAttempts--] subtracts 1 and
    rounds the result to the nearest double, ties to the even mantissa, which
    is the identity up to [2^53] in absolute value and not beyond. *)
Definition max_exact : Z := 2 ^ 53.

Definition round_to_double (z : Z) : Z :=
  let a := Z.abs z in
  if (a <? max_exact)%Z then z
  else
    let e := (Z.log2 a - 52)%Z in
    let q := (a / 2 ^ e)%Z in
    let r := (a mod 2 ^ e)%Z in
    let half := (2 ^ (e - 1))%Z in
    let q' :=
      if (r <? half)%Z then q
      else if (half <? r)%Z then (q + 1)%Z
      else if Z.even q then q else (q + 1)%Z in
    (Z.sgn z * (q' * 2 ^ e))%Z.

(** The value [x--] leaves in [x]. *)
Definition js_decrement (n : Z) : Z := round_to_double (n - 1).

(** ** The methods of [SocketInsight] *)

(** [x || d] on an option that is absent or holds an integer: [undefined]
    and [0] are falsy, every other integer is truthy. *)
Definition or_default (x : option Z) (d : Z) : Z :=
  match x with
  | Some n => if decide (n = 0%Z) then d else n
  | None => d
  end.

Definition connect : M unit :=
  s ← get_this;
  h ← new_WebSocket (url s);
  modify_this (set_socket h);;
  addEventListener h "open";;
  addEventListener h "message";;
  addEventListener h "close";;
  addEventListener h "error".

(** [constructor(url, options = {})].  The options object is a map from
    option names to integers; [None] stands for an omitted argument. *)
Definition constructor (address : string) (options : option (gmap string Z))
  : Result unit :=
  let options := default ∅ options in
  connect
    (mkWorld
       (mkSocketInsight address
          (or_default (options !! "retryAttempts") 3)
          (or_default (options !! "retryDelay") 1000)
          ∅ None)
       [] []).

Definition handleOpen : M unit :=
  s ← get_this;
  console_log ("[SocketInsight] Connected to " +:+ url s);;
  match listeners s !! "open" with
  | Some f => call f []
  | None => mret ()
  end.

Definition handleMessage (event : MessageEvent) : M unit :=
  console_log ("[SocketInsight] Received message: " +:+ data event);;
  s ← get_this;
  match listeners s !! "message" with
  | Some f => call f [VStr (data event)]
  | None => mret ()
  end.

Definition handleClose (event : CloseEvent) : M unit :=
  console_log ("[SocketInsight] Disconnected with code "
               +:+ pretty (code event) +:+ " and reason: " +:+ reason event);;
  s ← get_this;
  (if bool_decide (code event ≠ 1000%Z) && bool_decide (0 < retryAttempts s)%Z
   then
     console_log ("[SocketInsight] Retrying connection in "
                  +:+ pretty (retryDelay s) +:+ "ms...");;
     setTimeout (retryDelay s)
   else mret ());;
  s ← get_this;
  match listeners s !! "close" with
  | Some f => call f [VNum (code event); VStr (reason event)]
  | None => mret ()
  end.

(** The closure handed to [setTimeout] by [handleClose]. *)
Definition retryTimer : M unit :=
  modify_this (λ s, set_retryAttempts (js_decrement (retryAttempts s)) s);;
  connect.

Definition handleError (event : ErrorEvent) : M unit :=
  console_error ("[SocketInsight] Error: " +:+ message event);;
  s ← get_this;
  match listeners s !! "error" with
  | Some f => call f [VError event]
  | None => mret ()
  end.

Definition sendMessage (msg : string) : M unit :=
  s ← get_this;
  r ← socket_readyState s;
  if decide (r = OPEN) then
    socket_send s msg;;
    console_log ("[SocketInsight] Sent message: " +:+ msg)
  else
    console_error
      ("[SocketInsight] Cannot send message, WebSocket is not open. "
       +:+ "Current readyState: " +:+ pretty (readyState_code r)).

Definition closeConnection : M unit :=
  s ← get_this;
  socket_close s 1000 "Client closed the connection";;
  console_log ("[SocketInsight] Closed connection to " +:+ url s).

Definition on (event : string) (listener : callback) : M unit :=
  modify_this (λ s, set_listeners (<[event := listener]> (listeners s)) s).

(** ** The event loop

    What can happen to an instance: the transport reports one of its four
    events on some handle, the pending timer fires, or the caller invokes a
    public method.  A transport reports [open] once, while it is connecting;
    it delivers messages while it is open or closing; it reports [close]
    once, and nothing afterwards.  [connect] attaches the four handlers to
    every transport it creates, so each report reaches its handler.  Every
    handler calls the user's callback as its last statement, so what a
    callback does to the instance ([on], [sendMessage], [closeConnection])
    is a later turn of the loop; callbacks are taken to return normally. *)
Inductive Input :=
| Opened (h : nat)
| Received (h : nat) (event : MessageEvent)
| Closed (h : nat) (event : CloseEvent)
| Errored (h : nat) (event : ErrorEvent)
| TimerFired
| CallSendMessage (msg : string)
| CallCloseConnection
| CallOn (event : string) (listener : callback).

(** One turn of the event loop; [None] when the environment cannot produce
    the input in this world. *)
Definition step (w : World) (i : Input) : option (Result unit) :=
  match i with
  | Opened h =>
      match sockets w !! h with
      | Some CONNECTING =>
          Some (handleOpen (set_sockets (<[h := OPEN]> (sockets w)) w))
      | _ => None
      end
  | Received h event =>
      match sockets w !! h with
      | Some OPEN | Some CLOSING => Some (handleMessage event w)
      | _ => None
      end
  | Closed h event =>
      match sockets w !! h with
      | Some CLOSED | None => None
      | Some _ =>
          Some (handleClose event (set_sockets (<[h := CLOSED]> (sockets w)) w))
      end
  | Errored h event =>
      match sockets w !! h with
      | Some CLOSED | None => None
      | Some _ => Some (handleError event w)
      end
  | TimerFired =>
      match timers w with
      | _ :: rest => Some (retryTimer (set_timers rest w))
      | [] => None
      end
  | CallSendMessage msg => Some (sendMessage msg w)
  | CallCloseConnection => Some (closeConnection w)
  | CallOn event listener => Some (on event listener w)
  end.

(** A sequence of turns, with the calls observed along the way. *)
Fixpoint run (w : World) (inputs : list Input) : option (World * list Effect) :=
  match inputs with
  | [] => Some (w, [])
  | i :: rest =>
      match step w i with
      | Some r =>
          match run (after r) rest with
          | Some (w', t) => Some (w', trace r ++ t)
          | None => None
          end
      | None => None
      end
  end.

(** ** Observations on traces *)

Definition is_connect (e : Effect) : bool :=
  match e with NewWebSocket _ _ => true | _ => false end.

Definition is_setTimeout (e : Effect) : bool :=
  match e with SetTimeout _ => true | _ => false end.

Definition is_send (e : Effect) : bool :=
  match e with SocketSend _ _ => true | _ => false end.

Definition is_invoke (e : Effect) : bool :=
  match e with Invoke _ _ => true | _ => false end.

Definition invokes (f : callback) (e : Effect) : bool :=
  match e with Invoke g _ => bool_decide (g = f) | _ => false end.

Definition count (p : Effect → bool) (t : list Effect) : nat :=
  length (List.filter p t).

Definition is_abnormal (i : Input) : bool :=
  match i with
  | Closed _ event => bool_decide (code event ≠ 1000%Z)
  | _ => true
  end.

(** All transports have reported their closure and no timer is pending. *)
Definition quiescent (w : World) : Prop :=
  timers w = [] ∧ Forall (λ r, r = CLOSED) (sockets w).

(** The four event names the handlers look up. *)
Definition known_events : list string := ["open"; "message"; "close"; "error"].

(** What every world reached from a constructor satisfies: the instance
    holds the newest transport, every older transport has reported its
    closure, and a timer is pending only between the closure of the newest
    transport and the reconnect, with the retry counter still positive. *)
Definition coherent (w : World) : Prop :=
  ∃ h, socket (this w) = Some h ∧ length (sockets w) = S h ∧
    (∀ j, j < h → sockets w !! j = Some CLOSED) ∧
    (timers w = [] ∨
     (timers w = [retryDelay (this w)] ∧ sockets w !! h = Some CLOSED ∧
      (0 < retryAttempts (this w))%Z)).

(** The guard of [handleClose]:
    [event.code !== 1000 && this.retryAttempts > 0]. *)
Definition wants_retry (event : CloseEvent) (w : World) : bool :=
  bool_decide (code event ≠ 1000%Z) && bool_decide (0 < retryAttempts (this w))%Z.

(** The transport held by the instance closes, the timer fires, the new
    transport closes, and so on: [n] rounds from handle [h], then one more
    closure. *)
Fixpoint closures (h n : nat) (event : CloseEvent) : list Input :=
  match n with
  | 0 => [Closed h event]
  | S n' => Closed h event :: TimerFired :: closures (S h) n' event
  end.

(** The call that attaches the handler of the event [name]. *)
Definition is_listen (name : string) (e : Effect) : bool :=
  match e with
  | AddEventListener _ n => bool_decide (n = name)
  | _ => false
  end.

Definition is_timerFired (i : Input) : bool :=
  match i with TimerFired => true | _ => false end.

(** * Properties *)

(** ** The decrement *)

Lemma max_exact_eq : max_exact = 9007199254740992%Z.
Proof. reflexivity. Qed.

(** Up to [2^53] the decrement is exact. *)
Lemma js_decrement_exact n :
  (0 < n ≤ max_exact)%Z → js_decrement n = (n - 1)%Z.
Proof.
  intros Hn. unfold js_decrement, round_to_double. cbv zeta.
  destruct (Z.ltb_spec (Z.abs (n - 1)) max_exact) as [|Hge]; [done|].
  rewrite max_exact_eq in *. lia.
Qed.

(** Beyond it is not: the double next below [2^53 + 2] is [2^53], and
    [2^53 + 4] is left as it is. *)
Lemma js_decrement_inexact :
  js_decrement (max_exact + 2) = max_exact ∧
  js_decrement (max_exact + 4) = (max_exact + 4)%Z.
Proof. by vm_compute. Qed.

(** A positive counter is never taken below 0. *)
Lemma js_decrement_nonneg n : (0 < n)%Z → (0 ≤ js_decrement n)%Z.
Proof.
  intros Hn. unfold js_decrement, round_to_double. cbv zeta.
  destruct (Z.ltb_spec (Z.abs (n - 1)) max_exact) as [|Hge]; [lia|].
  rewrite max_exact_eq in Hge.
  assert (Z.sgn (n - 1) = 1%Z) as -> by (apply Z.sgn_pos; lia).
  rewrite Z.mul_1_l.
  set (e := (Z.log2 (Z.abs (n - 1)) - 52)%Z).
  assert (0 ≤ 2 ^ e)%Z as He by (apply Z.pow_nonneg; lia).
  assert (0 ≤ Z.abs (n - 1) / 2 ^ e)%Z as Hq.
  { destruct (decide (2 ^ e = 0)%Z) as [->|Hz].
    - by rewrite Z.div_0_r.
    - apply Z.div_pos; lia. }
  repeat case_match; apply Z.mul_nonneg_nonneg; lia.
Qed.

(** ** Unfolding the monad *)

Ltac monad_unfold :=
  unfold connect, handleOpen, handleMessage, handleClose, handleError,
    retryTimer, sendMessage, closeConnection, on, console_log, console_error,
    call, addEventListener, setTimeout, new_WebSocket, emit, get_this,
    modify_this, mbind, M_bind, mret, M_ret in *;
  cbn [outcome after trace this sockets timers set_this set_sockets set_timers
       url retryAttempts retryDelay listeners socket set_retryAttempts
       set_listeners set_socket app] in *.

Lemma count_app p t1 t2 : count p (t1 ++ t2) = count p t1 + count p t2.
Proof. unfold count. by rewrite List.filter_app, length_app. Qed.

Lemma count_zero_iff p t : count p t = 0 ↔ ∀ e, e ∈ t → p e = false.
Proof.
  unfold count. induction t as [|a t IH]; cbn.
  - split; [intros _ e He; inversion He | done].
  - destruct (p a) eqn:Ha; cbn.
    + split; [done | intros H]. specialize (H a (list_elem_of_here _ _)).
      congruence.
    + rewrite IH. split.
      * intros H e He. inversion He; subst; auto.
      * intros H e He. apply H. by constructor.
Qed.

(** ** What each method does to the world and to the trace *)

Lemma handleClose_after event w :
  after (handleClose event w) =
    if wants_retry event w
    then set_timers (timers w ++ [retryDelay (this w)]) w else w.
Proof.
  unfold wants_retry. monad_unfold.
  destruct (bool_decide (code event ≠ 1000%Z) &&
            bool_decide (0 < retryAttempts (this w))%Z); monad_unfold;
    destruct (listeners (this w) !! "close"); by destruct w.
Qed.

Lemma handleClose_trace event w :
  trace (handleClose event w) =
    [ConsoleLog ("[SocketInsight] Disconnected with code "
                 +:+ pretty (code event) +:+ " and reason: " +:+ reason event)]
    ++ (if wants_retry event w
        then [ConsoleLog ("[SocketInsight] Retrying connection in "
                          +:+ pretty (retryDelay (this w)) +:+ "ms...");
              SetTimeout (retryDelay (this w))]
        else [])
    ++ match listeners (this w) !! "close" with
       | Some f => [Invoke f [VNum (code event); VStr (reason event)]]
       | None => []
       end.
Proof.
  unfold wants_retry. monad_unfold.
  destruct (bool_decide (code event ≠ 1000%Z) &&
            bool_decide (0 < retryAttempts (this w))%Z); monad_unfold;
    by destruct (listeners (this w) !! "close").
Qed.

Lemma handleClose_outcome event w : outcome (handleClose event w) = inr ().
Proof.
  monad_unfold.
  destruct (bool_decide (code event ≠ 1000%Z) &&
            bool_decide (0 < retryAttempts (this w))%Z); monad_unfold;
    by destruct (listeners (this w) !! "close").
Qed.

Lemma connect_after w :
  after (connect w) =
    mkWorld (set_socket (length (sockets w)) (this w))
      (sockets w ++ [CONNECTING]) (timers w).
Proof. by monad_unfold. Qed.

Lemma connect_trace w :
  trace (connect w) =
    let h := length (sockets w) in
    [NewWebSocket h (url (this w)); AddEventListener h "open";
     AddEventListener h "message"; AddEventListener h "close";
     AddEventListener h "error"].
Proof. by monad_unfold. Qed.

Lemma retryTimer_after w :
  after (retryTimer w) =
    mkWorld (set_socket (length (sockets w))
               (set_retryAttempts (js_decrement (retryAttempts (this w)))
                  (this w)))
      (sockets w ++ [CONNECTING]) (timers w).
Proof. by monad_unfold. Qed.

Lemma retryTimer_trace w :
  trace (retryTimer w) =
    let h := length (sockets w) in
    [NewWebSocket h (url (this w)); AddEventListener h "open";
     AddEventListener h "message"; AddEventListener h "close";
     AddEventListener h "error"].
Proof. by monad_unfold. Qed.

Lemma handleOpen_after w : after (handleOpen w) = w.
Proof. monad_unfold. by destruct (listeners (this w) !! "open"). Qed.

Lemma handleOpen_trace w :
  trace (handleOpen w) =
    ConsoleLog ("[SocketInsight] Connected to " +:+ url (this w))
    :: match listeners (this w) !! "open" with
       | Some f => [Invoke f []]
       | None => []
       end.
Proof. monad_unfold. by destruct (listeners (this w) !! "open"). Qed.

Lemma handleMessage_after event w : after (handleMessage event w) = w.
Proof. monad_unfold. by destruct (listeners (this w) !! "message"). Qed.

Lemma handleMessage_trace event w :
  trace (handleMessage event w) =
    ConsoleLog ("[SocketInsight] Received message: " +:+ data event)
    :: match listeners (this w) !! "message" with
       | Some f => [Invoke f [VStr (data event)]]
       | None => []
       end.
Proof. monad_unfold. by destruct (listeners (this w) !! "message"). Qed.

Lemma handleError_after event w : after (handleError event w) = w.
Proof. monad_unfold. by destruct (listeners (this w) !! "error"). Qed.

Lemma handleError_trace event w :
  trace (handleError event w) =
    ConsoleError ("[SocketInsight] Error: " +:+ message event)
    :: match listeners (this w) !! "error" with
       | Some f => [Invoke f [VError event]]
       | None => []
       end.
Proof. monad_unfold. by destruct (listeners (this w) !! "error"). Qed.

Lemma on_after event listener w :
  after (on event listener w) =
    set_this (set_listeners (<[event := listener]> (listeners (this w)))
                (this w)) w.
Proof. done. Qed.

Lemma on_trace event listener w : trace (on event listener w) = [].
Proof. done. Qed.

(** [sendMessage] on a world whose instance holds a transport. *)
Lemma sendMessage_result msg w h r :
  socket (this w) = Some h → sockets w !! h = Some r →
  sendMessage msg w =
    mkResult (inr ()) w
      (if decide (r = OPEN)
       then [SocketSend h msg;
             ConsoleLog ("[SocketInsight] Sent message: " +:+ msg)]
       else [ConsoleError
               ("[SocketInsight] Cannot send message, WebSocket is not open. "
                +:+ "Current readyState: " +:+ pretty (readyState_code r))]).
Proof.
  intros Hs Hr. monad_unfold. unfold socket_readyState. rewrite Hs, Hr.
  cbn. destruct (decide (r = OPEN)) as [->|Hne]; cbn.
  - unfold socket_send. rewrite Hs, Hr. by cbn.
  - done.
Qed.

(** [closeConnection] on a world whose instance holds a transport. *)
Lemma closeConnection_result w h r :
  socket (this w) = Some h → sockets w !! h = Some r →
  closeConnection w =
    mkResult (inr ())
      (set_sockets
         (<[h := if decide (r = CLOSED) then CLOSED else CLOSING]> (sockets w))
         w)
      [SocketClose h 1000 "Client closed the connection";
       ConsoleLog ("[SocketInsight] Closed connection to " +:+ url (this w))].
Proof.
  intros Hs Hr. monad_unfold. unfold socket_close. rewrite Hs, Hr. by cbn.
Qed.

(** ** The invariant of the event loop *)

Lemma coherent_constructor address options :
  coherent (after (constructor address options)).
Proof.
  unfold constructor. rewrite connect_after. exists 0. cbn.
  repeat split; [intros j Hj; lia | by left].
Qed.

(** Only the transport the instance holds can still report an event. *)
Lemma coherent_live w h h' r :
  socket (this w) = Some h → length (sockets w) = S h →
  (∀ j, j < h → sockets w !! j = Some CLOSED) →
  sockets w !! h' = Some r → r ≠ CLOSED → h' = h.
Proof.
  intros Hs Hlen Hold Hr Hne.
  apply lookup_lt_Some in Hr as Hlt.
  destruct (decide (h' = h)) as [|Hd]; [done|].
  rewrite Hold in Hr by lia. congruence.
Qed.

Lemma step_coherent w i r :
  coherent w → step w i = Some r → coherent (after r).
Proof.
  intros (h & Hs & Hlen & Hold & Htim) Hstep.
  destruct i as [h'|h' ev|h' ev|h' ev| |msg| |e f]; cbn in Hstep.
  - destruct (sockets w !! h') as [rs|] eqn:Hr; [|done].
    destruct rs; try done. injection Hstep as <-.
    assert (h' = h) as -> by (eapply coherent_live; eauto; done).
    rewrite handleOpen_after. exists h. cbn.
    rewrite length_insert. repeat split; [done|done| |].
    + intros j Hj. rewrite list_lookup_insert_ne by lia. by apply Hold.
    + destruct Htim as [Ht|(_ & Hc & _)]; [by left | congruence].
  - destruct (sockets w !! h') as [rs|] eqn:Hr; [|done].
    destruct rs; try done; injection Hstep as <-;
      rewrite handleMessage_after; by exists h.
  - destruct (sockets w !! h') as [rs|] eqn:Hr; [|done].
    assert (rs ≠ CLOSED) as Hne by (by destruct rs).
    assert (h' = h) as -> by (eapply coherent_live; eauto).
    assert (timers w = []) as Ht.
    { destruct Htim as [Ht|(_ & Hc & _)]; [done | congruence]. }
    assert (Some r = Some (handleClose ev
              (set_sockets (<[h := CLOSED]> (sockets w)) w))) as Hr'
      by (by destruct rs).
    injection Hr' as ->. rewrite handleClose_after.
    assert (<[h := CLOSED]> (sockets w) !! h = Some CLOSED) as Hcl
      by (apply list_lookup_insert_eq; lia).
    unfold wants_retry. cbn.
    destruct (bool_decide (code ev ≠ 1000%Z)); cbn;
      [destruct (bool_decide (0 < retryAttempts (this w))%Z) eqn:Hb; cbn|].
    + exists h. cbn. rewrite length_insert, Ht. repeat split; [done|done| |].
      * intros j Hj. rewrite list_lookup_insert_ne by lia. by apply Hold.
      * right. apply bool_decide_eq_true in Hb. by repeat split.
    + exists h. cbn. rewrite length_insert. repeat split; [done|done| |].
      * intros j Hj. rewrite list_lookup_insert_ne by lia. by apply Hold.
      * by left.
    + exists h. cbn. rewrite length_insert. repeat split; [done|done| |].
      * intros j Hj. rewrite list_lookup_insert_ne by lia. by apply Hold.
      * by left.
  - destruct (sockets w !! h') as [rs|] eqn:Hr; [|done].
    destruct rs; try done; injection Hstep as <-;
      rewrite handleError_after; by exists h.
  - destruct (timers w) as [|d rest] eqn:Ht; [done|]. injection Hstep as <-.
    destruct Htim as [Ht'|(Ht' & Hc & Hpos)]; [done|].
    injection Ht' as -> ->. rewrite retryTimer_after. cbn.
    exists (S h). cbn. rewrite length_app, Hlen. cbn.
    repeat split; [by rewrite Nat.add_1_r| |by left].
    intros j Hj. rewrite lookup_app_l by lia.
    destruct (decide (j = h)) as [->|]; [done | apply Hold; lia].
  - injection Hstep as <-.
    destruct (lookup_lt_is_Some_2 (sockets w) h) as [rs Hr]; [lia|].
    rewrite (sendMessage_result msg w h rs) by done. cbn. by exists h.
  - injection Hstep as <-.
    destruct (lookup_lt_is_Some_2 (sockets w) h) as [rs Hr]; [lia|].
    rewrite (closeConnection_result w h rs) by done. exists h. cbn.
    rewrite length_insert. repeat split; [done|done| |].
    + intros j Hj. rewrite list_lookup_insert_ne by lia. by apply Hold.
    + destruct Htim as [Ht|(Ht & Hc & Hpos)]; [by left|right].
      repeat split; [done| |done].
      rewrite list_lookup_insert_eq by lia.
      assert (rs = CLOSED) as -> by congruence. done.
  - injection Hstep as <-. rewrite on_after. by exists h.
Qed.

Lemma run_coherent inputs : ∀ w w' t,
  coherent w → run w inputs = Some (w', t) → coherent w'.
Proof.
  induction inputs as [|i rest IH]; intros w w' t Hc Hrun; cbn in Hrun.
  - by injection Hrun as <- _.
  - destruct (step w i) as [r|] eqn:Hstep; [|done].
    destruct (run (after r) rest) as [[w1 t1]|] eqn:Hrest; [|done].
    injection Hrun as <- _. eapply IH; [|done]. by eapply step_coherent.
Qed.

(** In a coherent world every turn is one of the following. *)
Lemma step_inv w i r :
  coherent w → step w i = Some r →
  ∃ h, socket (this w) = Some h ∧ length (sockets w) = S h ∧
  match i with
  | Opened h' =>
      h' = h ∧ sockets w !! h = Some CONNECTING ∧ timers w = [] ∧
      r = handleOpen (set_sockets (<[h := OPEN]> (sockets w)) w)
  | Received h' ev =>
      h' = h ∧ sockets w !! h ≠ Some CLOSED ∧ timers w = [] ∧
      r = handleMessage ev w
  | Closed h' ev =>
      h' = h ∧ sockets w !! h ≠ Some CLOSED ∧ timers w = [] ∧
      r = handleClose ev (set_sockets (<[h := CLOSED]> (sockets w)) w)
  | Errored h' ev =>
      h' = h ∧ sockets w !! h ≠ Some CLOSED ∧ timers w = [] ∧
      r = handleError ev w
  | TimerFired =>
      timers w = [retryDelay (this w)] ∧ sockets w !! h = Some CLOSED ∧
      (0 < retryAttempts (this w))%Z ∧ r = retryTimer (set_timers [] w)
  | CallSendMessage msg =>
      ∃ rs, sockets w !! h = Some rs ∧
        r = mkResult (inr ()) w
              (if decide (rs = OPEN)
               then [SocketSend h msg;
                     ConsoleLog ("[SocketInsight] Sent message: " +:+ msg)]
               else [ConsoleError
                       ("[SocketInsight] Cannot send message, WebSocket is not open. "
                        +:+ "Current readyState: "
                        +:+ pretty (readyState_code rs))])
  | CallCloseConnection =>
      ∃ rs, sockets w !! h = Some rs ∧
        r = mkResult (inr ())
              (set_sockets
                 (<[h := if decide (rs = CLOSED) then CLOSED else CLOSING]>
                    (sockets w)) w)
              [SocketClose h 1000 "Client closed the connection";
               ConsoleLog ("[SocketInsight] Closed connection to "
                           +:+ url (this w))]
  | CallOn e f => r = on e f w
  end.
Proof.
  intros (h & Hs & Hlen & Hold & Htim) Hstep.
  assert (∀ h' rs, sockets w !! h' = Some rs → rs ≠ CLOSED →
            h' = h ∧ sockets w !! h ≠ Some CLOSED ∧ timers w = []) as Hlive.
  { intros h' rs Hr Hne.
    assert (h' = h) as -> by (eapply coherent_live; eauto).
    repeat split; [congruence|].
    destruct Htim as [Ht|(_ & Hc & _)]; [done | congruence]. }
  exists h. split; [done|]. split; [done|].
  destruct i as [h'|h' ev|h' ev|h' ev| |msg| |e f]; cbn in Hstep.
  - destruct (sockets w !! h') as [rs|] eqn:Hr; [|done].
    destruct rs; try done. injection Hstep as <-.
    destruct (Hlive h' CONNECTING) as (-> & _ & Ht); done.
  - destruct (sockets w !! h') as [rs|] eqn:Hr; [|done].
    destruct rs; try done; injection Hstep as <-;
      (destruct (Hlive h' _ Hr) as (-> & Hn & Ht); [done|]);
      by repeat split.
  - destruct (sockets w !! h') as [rs|] eqn:Hr; [|done].
    destruct rs; try done; injection Hstep as <-;
      (destruct (Hlive h' _ Hr) as (-> & Hn & Ht); [done|]);
      by repeat split.
  - destruct (sockets w !! h') as [rs|] eqn:Hr; [|done].
    destruct rs; try done; injection Hstep as <-;
      (destruct (Hlive h' _ Hr) as (-> & Hn & Ht); [done|]);
      by repeat split.
  - destruct (timers w) as [|d rest] eqn:Ht; [done|]. injection Hstep as <-.
    destruct Htim as [Ht'|(Ht' & Hc & Hpos)]; [done|].
    injection Ht' as -> ->. by repeat split.
  - injection Hstep as <-.
    destruct (lookup_lt_is_Some_2 (sockets w) h) as [rs Hr]; [lia|].
    exists rs. split; [done|]. by apply sendMessage_result.
  - injection Hstep as <-.
    destruct (lookup_lt_is_Some_2 (sockets w) h) as [rs Hr]; [lia|].
    exists rs. split; [done|]. by apply closeConnection_result.
  - by injection Hstep as <-.
Qed.

Ltac step_cases Hc Hstep h :=
  let Hs := fresh "Hs" in
  let Hlen := fresh "Hlen" in
  let Hi := fresh "Hi" in
  destruct (step_inv _ _ _ Hc Hstep) as (h & Hs & Hlen & Hi);
  match type of Hstep with
  | step _ ?i = _ =>
      destruct i; cbn in Hc, Hi;
      [destruct Hi as (-> & ? & ? & ->) | destruct Hi as (-> & ? & ? & ->)
      |destruct Hi as (-> & ? & ? & ->) | destruct Hi as (-> & ? & ? & ->)
      |destruct Hi as (? & ? & ? & ->) | destruct Hi as (? & ? & ->)
      |destruct Hi as (? & ? & ->) | subst]
  end.

(** The address and the delay are never written after construction; the
    retry counter is written by the timer alone. *)
Lemma step_fields w i r :
  coherent w → step w i = Some r →
  url (this (after r)) = url (this w) ∧
  retryDelay (this (after r)) = retryDelay (this w) ∧
  retryAttempts (this (after r)) =
    match i with
    | TimerFired => js_decrement (retryAttempts (this w))
    | _ => retryAttempts (this w)
    end.
Proof.
  intros Hc Hstep. step_cases Hc Hstep h;
    rewrite ?handleOpen_after, ?handleMessage_after, ?handleClose_after,
      ?handleError_after, ?retryTimer_after, ?on_after; cbn; try done.
  by destruct (wants_retry _ _).
Qed.

(** A transport is created by the timer, and by nothing else. *)
Lemma step_connects w i r :
  coherent w → step w i = Some r →
  count is_connect (trace r) =
    match i with TimerFired => 1 | _ => 0 end.
Proof.
  intros Hc Hstep. step_cases Hc Hstep h;
    rewrite ?handleOpen_trace, ?handleMessage_trace, ?handleClose_trace,
      ?handleError_trace, ?retryTimer_trace, ?on_trace; cbn; try done.
  - by destruct (listeners _ !! "open").
  - by destruct (listeners _ !! "message").
  - by destruct (wants_retry _ _), (listeners _ !! "close").
  - by destruct (listeners _ !! "error").
  - by case_decide.
Qed.

(** ** Reasoning about runs *)

Lemma run_cons w i rest w' t :
  run w (i :: rest) = Some (w', t) →
  ∃ r t', step w i = Some r ∧ run (after r) rest = Some (w', t') ∧
          t = trace r ++ t'.
Proof.
  cbn [run]. destruct (step w i) as [r|]; [|done].
  destruct (run (after r) rest) as [[w1 t1]|] eqn:Hrest; [|done].
  intros [= <- <-]. by exists r, t1.
Qed.

(** A property of worlds kept by every admitted turn holds at the end of a
    run, and a property of calls met by every admitted turn holds of the
    whole trace. *)
Lemma run_preserves (P : World → Prop) (ok : Input → Prop) (Q : Effect → Prop) :
  (∀ w i r, coherent w → P w → ok i → step w i = Some r →
            P (after r) ∧ Forall Q (trace r)) →
  ∀ inputs w w' t,
    coherent w → P w → Forall ok inputs → run w inputs = Some (w', t) →
    P w' ∧ Forall Q t.
Proof.
  intros Hstep. induction inputs as [|i rest IH]; intros w w' t Hc HP Hok Hrun.
  - cbn in Hrun. injection Hrun as <- <-. by split.
  - apply run_cons in Hrun as (r & t' & Hs & Hrest & ->).
    apply Forall_cons in Hok as [Hi Hok].
    destruct (Hstep w i r Hc HP Hi Hs) as [HP' HQ].
    destruct (IH (after r) w' t') as [HP'' HQ']; try done.
    { by eapply step_coherent. }
    split; [done | by apply Forall_app].
Qed.

Lemma Forall_count_zero p t :
  Forall (λ e, p e = false) t → count p t = 0.
Proof.
  intros H. apply count_zero_iff. intros e He.
  by eapply Forall_forall in H.
Qed.

(** Every reconnect costs one unit of the retry counter. *)
Lemma run_budget inputs : ∀ w w' t,
  coherent w → (retryAttempts (this w) ≤ max_exact)%Z →
  run w inputs = Some (w', t) →
  (retryAttempts (this w') + Z.of_nat (count is_connect t))%Z
  = retryAttempts (this w).
Proof.
  induction inputs as [|i rest IH]; intros w w' t Hc Hmax Hrun.
  - cbn in Hrun. injection Hrun as <- <-. cbn. lia.
  - apply run_cons in Hrun as (r & t' & Hs & Hrest & ->).
    rewrite count_app, (step_connects w i r Hc Hs).
    destruct (step_fields w i r Hc Hs) as (_ & _ & Hb).
    assert (retryAttempts (this (after r)) =
              match i with
              | TimerFired => (retryAttempts (this w) - 1)%Z
              | _ => retryAttempts (this w)
              end) as Hb'.
    { destruct i; try done. rewrite Hb. apply js_decrement_exact.
      destruct (step_inv _ _ _ Hc Hs) as (h & _ & _ & _ & _ & Hpos & _).
      lia. }
    assert (retryAttempts (this (after r)) ≤ max_exact)%Z as Hmax'
      by (destruct i; lia).
    specialize (IH (after r) w' t' (step_coherent _ _ _ Hc Hs) Hmax' Hrest).
    destruct i; lia.
Qed.

(** The retry counter never becomes negative. *)
Lemma run_budget_nonneg inputs w w' t :
  coherent w → (0 ≤ retryAttempts (this w))%Z →
  run w inputs = Some (w', t) → (0 ≤ retryAttempts (this w'))%Z.
Proof.
  intros Hc Hb Hrun.
  apply (run_preserves (λ w, 0 ≤ retryAttempts (this w))%Z
           (λ _, True) (λ _, True)) with (w' := w') (t := t) (w := w)
           (inputs := inputs); try done.
  - clear. intros w i r Hc Hb _ Hs. split; [|by apply Forall_true].
    destruct (step_fields w i r Hc Hs) as (_ & _ & Hr).
    destruct i; try lia.
    destruct (step_inv _ _ _ Hc Hs) as (h & _ & _ & _ & _ & Hpos & _).
    rewrite Hr. by apply js_decrement_nonneg.
  - by apply Forall_true.
Qed.

(** Once the counter is 0 it stays 0 and no transport is created. *)
Lemma run_exhausted inputs w w' t :
  coherent w → retryAttempts (this w) = 0%Z →
  run w inputs = Some (w', t) →
  retryAttempts (this w') = 0%Z ∧ count is_connect t = 0.
Proof.
  intros Hc Hb Hrun.
  destruct (run_preserves (λ w, retryAttempts (this w) = 0)%Z
           (λ _, True) (λ e, is_connect e = false)) with (w' := w') (t := t)
           (w := w) (inputs := inputs) as [H1 H2]; try done.
  - clear. intros w i r Hc Hb _ Hs.
    assert (i ≠ TimerFired) as Hi.
    { intros ->.
      destruct (step_inv _ _ _ Hc Hs) as (h & _ & _ & _ & _ & Hpos & _). lia. }
    destruct (step_fields w i r Hc Hs) as (_ & _ & Hr).
    pose proof (step_connects w i r Hc Hs) as Hn.
    split; [by destruct i; try lia|].
    apply Forall_forall. intros e He.
    assert (count is_connect (trace r) = 0) as H0 by (by destruct i).
    by eapply count_zero_iff in H0.
  - by apply Forall_true.
  - split; [done | by apply Forall_count_zero].
Qed.

(** With every transport closed and no timer pending, only the caller can
    act, and none of its calls opens a transport. *)
Lemma run_quiescent inputs w w' t :
  coherent w → quiescent w → run w inputs = Some (w', t) →
  quiescent w' ∧ count is_connect t = 0.
Proof.
  intros Hc Hq Hrun.
  destruct (run_preserves quiescent (λ _, True) (λ e, is_connect e = false))
    with (w' := w') (t := t) (w := w) (inputs := inputs) as [H1 H2]; try done.
  - clear. intros w i r Hc [Ht Hall] _ Hs.
    assert (∀ h, sockets w !! h ≠ Some CLOSED → sockets w !! h = None) as Hcl.
    { intros h Hn. destruct (sockets w !! h) as [rs|] eqn:Hr; [|done].
      eapply Forall_lookup_1 in Hall; [|done]. by subst. }
    step_cases Hc Hs h;
      try match goal with
          | H : sockets _ !! _ ≠ Some CLOSED |- _ =>
              apply Hcl in H; apply lookup_ge_None in H; lia
          | H : sockets _ !! _ = Some CONNECTING |- _ =>
              eapply Forall_lookup_1 in Hall; [|apply H]; done
          | H : timers _ = [_] |- _ => congruence
          end; cbn.
    + destruct (decide (x = OPEN)); by repeat constructor.
    + split; [|by repeat constructor]. split; [done|]. cbn.
      assert (x = CLOSED) as ->.
      { eapply Forall_lookup_1 in Hall; [|done]. done. }
      cbn. by rewrite list_insert_id.
    + by repeat split.
  - by apply Forall_true.
  - split; [done | by apply Forall_count_zero].
Qed.

(** While every reported closure is abnormal, the instance comes to rest
    only with a spent counter. *)
Lemma run_abnormal_rest inputs w w' t :
  coherent w → (0 ≤ retryAttempts (this w))%Z →
  (quiescent w → retryAttempts (this w) = 0%Z) →
  Forall (λ i, is_abnormal i = true) inputs →
  run w inputs = Some (w', t) →
  quiescent w' → retryAttempts (this w') = 0%Z.
Proof.
  intros Hc Hb Hq Hin Hrun.
  destruct (run_preserves
              (λ w, (0 ≤ retryAttempts (this w))%Z ∧
                    (quiescent w → retryAttempts (this w) = 0%Z))
              (λ i, is_abnormal i = true) (λ _, True))
    with (w' := w') (t := t) (w := w) (inputs := inputs) as [[_ H1] _];
    try done.
  clear. intros w i r Hc [Hb Hq] Hab Hs. split; [|by apply Forall_true].
  split; [by eapply (run_budget_nonneg [i]); [| |cbn; rewrite Hs]|].
  step_cases Hc Hs h; cbn.
  - rewrite handleOpen_after. intros [_ Hall]. cbn in Hall.
    eapply Forall_lookup_1 in Hall;
      [|apply list_lookup_insert_eq; lia]. done.
  - by rewrite handleMessage_after.
  - rewrite handleClose_after. unfold wants_retry. cbn in *. rewrite Hab. cbn.
    destruct (bool_decide (0 < retryAttempts (this w))%Z) eqn:Hp; cbn.
    + intros [Ht _]. cbn in Ht. by apply app_nil in Ht as [_ ?].
    + intros _. apply bool_decide_eq_false in Hp. lia.
  - by rewrite handleError_after.
  - rewrite retryTimer_after. intros [_ Hall]. cbn in Hall.
    rewrite Forall_app, Forall_singleton in Hall. by destruct Hall.
  - done.
  - intros [Ht Hall]. cbn in *. apply Hq. split; [done|].
    assert (x = CLOSED) as ->.
    { eapply Forall_lookup_1 in Hall;
        [|apply list_lookup_insert_eq; lia].
      by destruct (decide (x = CLOSED)). }
    cbn in Hall. by rewrite list_insert_id in Hall.
  - intros [Ht Hall]. by apply Hq.
Qed.

(** Every timer is armed with the delay fixed at construction. *)
Lemma run_delay inputs w w' t :
  coherent w → run w inputs = Some (w', t) →
  retryDelay (this w') = retryDelay (this w) ∧
  Forall (λ e, ∀ x, e = SetTimeout x → x = retryDelay (this w)) t.
Proof.
  intros Hc Hrun.
  apply (run_preserves (λ w1, retryDelay (this w1) = retryDelay (this w))
           (λ _, True)
           (λ e, ∀ x, e = SetTimeout x → x = retryDelay (this w)))
    with (inputs := inputs) (w := w) (w' := w') (t := t); try done;
    [|by apply Forall_true].
  clear. intros w1 i r Hc Hd _ Hs.
  destruct (step_fields w1 i r Hc Hs) as (_ & Hd' & _).
  split; [congruence|].
  step_cases Hc Hs h;
    rewrite ?handleOpen_trace, ?handleMessage_trace, ?handleClose_trace,
      ?handleError_trace, ?retryTimer_trace, ?on_trace; cbn;
    repeat match goal with
      | |- context [listeners ?s !! ?k] => destruct (listeners s !! k)
      | |- context [wants_retry ?e ?w] => destruct (wants_retry e w)
      | |- context [decide ?P] => destruct (decide P)
      end; cbn; repeat constructor; intros y [=]; congruence.
Qed.

(** A message reaches the transport only inside a call of [sendMessage]. *)
Lemma run_no_send inputs w w' t :
  coherent w → Forall (λ i, ∀ m, i ≠ CallSendMessage m) inputs →
  run w inputs = Some (w', t) → count is_send t = 0.
Proof.
  intros Hc Hin Hrun. apply Forall_count_zero.
  apply (run_preserves (λ _, True) (λ i, ∀ m, i ≠ CallSendMessage m)
           (λ e, is_send e = false))
    with (inputs := inputs) (w := w) (w' := w'); try done.
  clear. intros w1 i r Hc _ Hi Hs. split; [done|].
  step_cases Hc Hs h;
    rewrite ?handleOpen_trace, ?handleMessage_trace, ?handleClose_trace,
      ?handleError_trace, ?retryTimer_trace, ?on_trace; cbn;
    try (by destruct (Hi msg));
    repeat match goal with
      | |- context [listeners ?s !! ?k] => destruct (listeners s !! k)
      | |- context [wants_retry ?e ?w] => destruct (wants_retry e w)
      end; cbn; by repeat constructor.
Qed.

(** A callback stored under none of the four handled names, and not
    registered under one of them later, is never called. *)
Lemma run_unheard f inputs w w' t :
  coherent w →
  (∀ k, k ∈ known_events → listeners (this w) !! k ≠ Some f) →
  Forall (λ i, ∀ k, k ∈ known_events → i ≠ CallOn k f) inputs →
  run w inputs = Some (w', t) → count (invokes f) t = 0.
Proof.
  intros Hc Hf Hin Hrun. apply Forall_count_zero.
  apply (run_preserves
           (λ w, ∀ k, k ∈ known_events → listeners (this w) !! k ≠ Some f)
           (λ i, ∀ k, k ∈ known_events → i ≠ CallOn k f)
           (λ e, invokes f e = false))
    with (inputs := inputs) (w := w) (w' := w'); try done.
  clear. intros w i r Hc Hf Hi Hs.
  assert (∀ k g args, k ∈ known_events → listeners (this w) !! k = Some g →
            invokes f (Invoke g args) = false) as Hk.
  { intros k g args Hin Hg. cbn. apply bool_decide_eq_false. intros ->.
    by apply (Hf k). }
  assert ("open" ∈ known_events ∧ "message" ∈ known_events ∧
          "close" ∈ known_events ∧ "error" ∈ known_events)
    as (Ho & Hm & Hcl & He) by (unfold known_events; set_solver).
  step_cases Hc Hs h;
    rewrite ?handleOpen_after, ?handleMessage_after, ?handleClose_after,
      ?handleError_after, ?retryTimer_after, ?on_after;
    rewrite ?handleOpen_trace, ?handleMessage_trace, ?handleClose_trace,
      ?handleError_trace, ?retryTimer_trace, ?on_trace; cbn.
  - split; [done|]. destruct (listeners _ !! "open") eqn:E;
      repeat constructor. by eapply (Hk "open").
  - split; [done|]. destruct (listeners _ !! "message") eqn:E;
      repeat constructor. by eapply (Hk "message").
  - split; [by destruct (wants_retry _ _)|].
    destruct (wants_retry _ _), (listeners _ !! "close") eqn:E;
      repeat constructor; by eapply (Hk "close").
  - split; [done|]. destruct (listeners _ !! "error") eqn:E;
      repeat constructor. by eapply (Hk "error").
  - split; [done | by repeat constructor].
  - split; [done|]. case_decide; by repeat constructor.
  - split; [done | by repeat constructor].
  - split; [|done]. intros k Hin.
    destruct (decide (event = k)) as [->|Hne].
    + rewrite lookup_insert_eq. intros [= ->]. by apply (Hi k).
    + rewrite lookup_insert_ne by done. by apply Hf.
Qed.

(** ** The run in which every transport closes abnormally *)

Lemma step_Closed_live w h rs event :
  sockets w !! h = Some rs → rs ≠ CLOSED →
  step w (Closed h event) =
    Some (handleClose event (set_sockets (<[h := CLOSED]> (sockets w)) w)).
Proof. intros Hr Hne. cbn. rewrite Hr. by destruct rs. Qed.

Lemma closures_run n : ∀ w h rs event,
  coherent w → socket (this w) = Some h → sockets w !! h = Some rs →
  rs ≠ CLOSED → code event ≠ 1000%Z →
  retryAttempts (this w) = Z.of_nat n → (Z.of_nat n ≤ max_exact)%Z →
  ∃ w' t, run w (closures h n event) = Some (w', t) ∧ quiescent w' ∧
          count is_connect t = n ∧ retryAttempts (this w') = 0%Z.
Proof.
  induction n as [|n IH]; intros w h rs event Hc Hs Hr Hne Hcode Hb Hmax.
  - pose proof (step_Closed_live w h rs event Hr Hne) as Hstep.
    destruct (step_inv _ _ _ Hc Hstep) as (h0 & Hs0 & Hlen & _ & _ & Ht & _).
    assert (h0 = h) as -> by congruence.
    cbn [closures run]. rewrite Hstep. cbn [run].
    eexists _, _. split; [done|].
    rewrite app_nil_r, (step_connects _ _ _ Hc Hstep), handleClose_after.
    unfold wants_retry. cbn. rewrite Hb. cbn.
    rewrite andb_false_r. repeat split; try done.
    cbn. destruct Hc as (h1 & Hs1 & _ & Hold & _).
    assert (h1 = h) as -> by congruence.
    apply Forall_lookup. intros j x Hj.
    apply lookup_lt_Some in Hj as Hlt. rewrite length_insert in Hlt.
    destruct (decide (j = h)) as [->|Hd].
    + rewrite list_lookup_insert_eq in Hj by lia. congruence.
    + rewrite list_lookup_insert_ne in Hj by done.
      rewrite Hold in Hj by lia. congruence.
  - pose proof (step_Closed_live w h rs event Hr Hne) as Hstep.
    destruct (step_inv _ _ _ Hc Hstep) as (h0 & Hs0 & Hlen & _ & _ & Ht & _).
    assert (h0 = h) as -> by congruence.
    pose proof (step_coherent _ _ _ Hc Hstep) as Hc1.
    assert (after (handleClose event
                     (set_sockets (<[h := CLOSED]> (sockets w)) w))
            = mkWorld (this w) (<[h := CLOSED]> (sockets w))
                [retryDelay (this w)]) as Hw1.
    { rewrite handleClose_after. unfold wants_retry. cbn. rewrite Ht.
      rewrite (bool_decide_eq_true_2 _ Hcode).
      rewrite bool_decide_eq_true_2 by lia. done. }
    set (w1 := mkWorld (this w) (<[h := CLOSED]> (sockets w))
                 [retryDelay (this w)]) in *.
    assert (step w1 TimerFired = Some (retryTimer (set_timers [] w1)))
      as Hstep2 by done.
    rewrite Hw1 in Hc1.
    pose proof (step_coherent _ _ _ Hc1 Hstep2) as Hc2.
    destruct (IH (after (retryTimer (set_timers [] w1))) (S h) CONNECTING event)
      as (w' & t & Hrun & Hq & Hn & Hz); try done.
    + rewrite retryTimer_after. cbn. by rewrite length_insert, Hlen.
    + rewrite retryTimer_after. cbn.
      rewrite lookup_app_r; rewrite length_insert, Hlen; [|lia].
      by rewrite Nat.sub_diag.
    + rewrite retryTimer_after. cbn. rewrite js_decrement_exact; lia.
    + lia.
    + cbn [closures run]. rewrite Hstep, Hw1. cbn [run].
      rewrite Hstep2, Hrun. eexists _, _. split; [done|].
      repeat split; try apply Hq; try done.
      rewrite !count_app, (step_connects _ _ _ Hc Hstep),
        (step_connects _ _ _ Hc1 Hstep2), Hn. done.
Qed.

(** ** Construction *)

Lemma constructor_after address options :
  after (constructor address options) =
    mkWorld
      (mkSocketInsight address
         (or_default (default ∅ options !! "retryAttempts") 3)
         (or_default (default ∅ options !! "retryDelay") 1000)
         ∅ (Some 0))
      [CONNECTING] [].
Proof. done. Qed.

(** A positive [retryAttempts] becomes the retry counter, and without the
    option the counter is 3. *)
Lemma constructor_retryAttempts address (options : gmap string Z) :
  (∀ n, options !! "retryAttempts" = Some n → (0 < n)%Z →
        retryAttempts (this (after (constructor address (Some options)))) = n) ∧
  (options !! "retryAttempts" = None →
   retryAttempts (this (after (constructor address (Some options)))) = 3%Z) ∧
  retryAttempts (this (after (constructor address None))) = 3%Z.
Proof.
  rewrite !constructor_after. cbn. repeat split.
  - intros n -> Hn. cbn. case_decide; [lia | done].
  - by intros ->.
Qed.

(** C2, at the input the claim singles out: constructing with
    [{retryAttempts: 0}] leaves the retry counter at 3, not at 0, because
    [options.retryAttempts || 3] takes the falsy 0 for a missing option. *)
Theorem constructor_retryAttempts_zero address :
  retryAttempts
    (this (after (constructor address (Some {[ "retryAttempts" := 0%Z ]}))))
  = 3%Z.
Proof. by rewrite constructor_after. Qed.

(** C3, as the claim states it, fails: the constructor reads the option
    [retryDelay]; an option named [retryDelayMs] is not read, and the delay
    stays at 1000. *)
Lemma retryDelayMs_not_read :
  retryDelay
    (this (after (constructor "wss://example.com"
                    (Some {[ "retryDelayMs" := 50%Z ]})))) = 1000%Z ∧
  retryDelay
    (this (after (constructor "wss://example.com"
                    (Some {[ "retryDelayMs" := 50%Z ]})))) ≠ 50%Z.
Proof. by vm_compute. Qed.

(** C3, amended: for every positive integer [d], constructing with
    [{retryDelay: d}] fixes the pause before each reconnect at [d]
    milliseconds, and without the option the pause is 1000: the field keeps
    that value in every later world, and every timer [handleClose] arms is
    armed with it. *)
Theorem retryDelay_configured address options d inputs w t :
  (default ∅ options !! "retryDelay" = Some d ∧ (0 < d)%Z) ∨
  (default ∅ options !! "retryDelay" = None ∧ d = 1000%Z) →
  run (after (constructor address options)) inputs = Some (w, t) →
  retryDelay (this (after (constructor address options))) = d ∧
  retryDelay (this w) = d ∧
  (∀ x, SetTimeout x ∈ t → x = d) ∧
  (∀ x, x ∈ timers w → x = d).
Proof.
  intros Hd Hrun.
  assert (retryDelay (this (after (constructor address options))) = d)
    as H0.
  { rewrite constructor_after. cbn.
    destruct Hd as [[-> Hpos]|[-> ->]]; cbn; [|done].
    case_decide; [lia | done]. }
  pose proof (coherent_constructor address options) as Hc.
  destruct (run_delay _ _ _ _ Hc Hrun) as [H1 H2]. rewrite H0 in H1, H2.
  repeat split; try done.
  - intros x Hx. eapply Forall_forall in H2; [|done]. by apply H2.
  - intros x Hx.
    destruct (run_coherent _ _ _ _ Hc Hrun) as (h & _ & _ & _ & Ht).
    destruct Ht as [Ht|(Ht & _)]; rewrite Ht in Hx.
    + by apply elem_of_nil in Hx.
    + apply list_elem_of_singleton in Hx. congruence.
Qed.

Lemma retryDelay_configured_witness :
  ∃ w t,
    run (after (constructor "wss://example.com"
                  (Some {[ "retryDelay" := 50%Z ]})))
      [Closed 0 (mkCloseEvent 1006 "")] = Some (w, t) ∧
    retryDelay (this w) = 50%Z ∧
    (∀ x, SetTimeout x ∈ t → x = 50%Z) ∧ (∀ x, x ∈ timers w → x = 50%Z).
Proof.
  eexists _, _. split; [vm_compute; reflexivity|].
  eapply (retryDelay_configured "wss://example.com"
            (Some {[ "retryDelay" := 50%Z ]}) 50
            [Closed 0 (mkCloseEvent 1006 "")]).
  - left. split; [vm_compute; reflexivity | lia].
  - vm_compute; reflexivity.
Defined.

(** ** The close handler *)

(** A closure with code 1000 arms no timer, opens no transport and leaves
    the instance at rest. *)
Lemma closed_normally w h event r :
  coherent w → code event = 1000%Z → step w (Closed h event) = Some r →
  count is_setTimeout (trace r) = 0 ∧ count is_connect (trace r) = 0 ∧
  this (after r) = this w ∧ timers (after r) = [] ∧
  coherent (after r) ∧ quiescent (after r).
Proof.
  intros Hc Hcode Hstep.
  pose proof (step_coherent _ _ _ Hc Hstep) as Hc'.
  pose proof (step_connects _ _ _ Hc Hstep) as Hn.
  destruct (step_inv _ _ _ Hc Hstep) as (h0 & Hs & Hlen & -> & Hr & Ht & ->).
  assert (wants_retry event (set_sockets (<[h0 := CLOSED]> (sockets w)) w)
          = false) as Hw.
  { unfold wants_retry. rewrite Hcode.
    by rewrite (bool_decide_eq_false_2 (1000 ≠ 1000)%Z) by (intros ?; done). }
  rewrite handleClose_after, handleClose_trace, Hw in *. cbn.
  repeat split; try done.
  - by destruct (listeners (this w) !! "close").
  - cbn. destruct Hc as (h1 & Hs1 & _ & Hold & _).
    assert (h1 = h0) as -> by congruence.
    apply Forall_lookup. intros j x Hj.
    apply lookup_lt_Some in Hj as Hlt. rewrite length_insert in Hlt.
    destruct (decide (j = h0)) as [->|Hd].
    + rewrite list_lookup_insert_eq in Hj by lia. congruence.
    + rewrite list_lookup_insert_ne in Hj by done.
      rewrite Hold in Hj by lia. congruence.
Qed.

(** C4: when a close event with code 1000 reaches the close handler, in any
    world reached from a constructor and so whatever the retry counter holds,
    no timer is armed and no transport is opened, in that turn or in any
    later one. *)
Theorem normal_closure_never_reconnects
    address options inputs w t0 h event r :
  run (after (constructor address options)) inputs = Some (w, t0) →
  code event = 1000%Z →
  step w (Closed h event) = Some r →
  count is_setTimeout (trace r) = 0 ∧ count is_connect (trace r) = 0 ∧
  retryAttempts (this (after r)) = retryAttempts (this w) ∧
  timers (after r) = [] ∧
  ∀ later w' t, run (after r) later = Some (w', t) →
                count is_connect t = 0 ∧ timers w' = [].
Proof.
  intros Hrun Hcode Hstep.
  pose proof (run_coherent _ _ _ _ (coherent_constructor address options) Hrun)
    as Hc.
  destruct (closed_normally w h event r Hc Hcode Hstep)
    as (H1 & H2 & H3 & H4 & Hc' & Hq).
  split; [done|]. split; [done|]. split; [by rewrite H3|]. split; [done|].
  intros later w' t Hlater.
  by destruct (run_quiescent later (after r) w' t Hc' Hq Hlater) as [[? _] ?].
Qed.

Lemma normal_closure_never_reconnects_witness :
  ∃ w t0 r,
    run (after (constructor "wss://example.com" None)) [Opened 0]
      = Some (w, t0) ∧
    step w (Closed 0 (mkCloseEvent 1000 "bye")) = Some r ∧
    retryAttempts (this w) = 3%Z ∧
    count is_setTimeout (trace r) = 0 ∧ count is_connect (trace r) = 0 ∧
    retryAttempts (this (after r)) = retryAttempts (this w) ∧
    timers (after r) = [] ∧
    ∀ later w' t, run (after r) later = Some (w', t) →
                  count is_connect t = 0 ∧ timers w' = [].
Proof.
  eexists _, _, _. split; [vm_compute; reflexivity|].
  split; [vm_compute; reflexivity|]. split; [reflexivity|].
  eapply (normal_closure_never_reconnects "wss://example.com" None [Opened 0]
            _ _ 0 (mkCloseEvent 1000 "bye"));
    [vm_compute; reflexivity | reflexivity | vm_compute; reflexivity].
Defined.

(** C7: every close event handed to the close handler calls the stored
    [close] callback exactly once, with the event's code and reason, whether
    or not the handler arms the retry timer; with no callback stored nothing
    is called. *)
Theorem handleClose_calls_close_listener event w :
  List.filter is_invoke (trace (handleClose event w)) =
    match listeners (this w) !! "close" with
    | Some f => [Invoke f [VNum (code event); VStr (reason event)]]
    | None => []
    end.
Proof.
  rewrite handleClose_trace.
  by destruct (wants_retry event w), (listeners (this w) !! "close").
Qed.

(** C10: the handlers of the opened, message and error events leave the
    whole world as it is (address, retry counter, delay, listeners, transport
    handle, transports, timers); each writes one console line and calls the
    callback stored under its name, if any.  So an opened connection does
    not restore the retry counter and an error arms no timer. *)
Theorem passive_handlers w (m : MessageEvent) (e : ErrorEvent) :
  (after (handleOpen w) = w ∧
   trace (handleOpen w) =
     ConsoleLog ("[SocketInsight] Connected to " +:+ url (this w))
     :: match listeners (this w) !! "open" with
        | Some f => [Invoke f []]
        | None => []
        end) ∧
  (after (handleMessage m w) = w ∧
   trace (handleMessage m w) =
     ConsoleLog ("[SocketInsight] Received message: " +:+ data m)
     :: match listeners (this w) !! "message" with
        | Some f => [Invoke f [VStr (data m)]]
        | None => []
        end) ∧
  (after (handleError e w) = w ∧
   trace (handleError e w) =
     ConsoleError ("[SocketInsight] Error: " +:+ message e)
     :: match listeners (this w) !! "error" with
        | Some f => [Invoke f [VError e]]
        | None => []
        end ∧
   count is_setTimeout (trace (handleError e w)) = 0 ∧
   count is_connect (trace (handleError e w)) = 0).
Proof.
  rewrite handleOpen_after, handleMessage_after, handleError_after,
    handleOpen_trace, handleMessage_trace, handleError_trace.
  repeat split; by destruct (listeners (this w) !! "error").
Qed.

(** ** The guarded operations *)

(** C5: in every world reached from a constructor, [sendMessage m] returns
    without throwing, changes nothing in the world (so nothing is kept for
    later), and calls no callback; it hands [m] unchanged to the transport
    when the ready state is OPEN and then only, and otherwise its one
    observable call is the console error.  Later turns that are not calls of
    [sendMessage] send nothing. *)
Theorem sendMessage_guarded address options inputs w t0 msg :
  run (after (constructor address options)) inputs = Some (w, t0) →
  ∃ h rs,
    socket (this w) = Some h ∧ sockets w !! h = Some rs ∧
    outcome (sendMessage msg w) = inr () ∧
    after (sendMessage msg w) = w ∧
    count is_invoke (trace (sendMessage msg w)) = 0 ∧
    (rs = OPEN →
     trace (sendMessage msg w) =
       [SocketSend h msg;
        ConsoleLog ("[SocketInsight] Sent message: " +:+ msg)]) ∧
    (rs ≠ OPEN →
     trace (sendMessage msg w) =
       [ConsoleError
          ("[SocketInsight] Cannot send message, WebSocket is not open. "
           +:+ "Current readyState: " +:+ pretty (readyState_code rs))]) ∧
    ∀ later w' t,
      Forall (λ i, ∀ m, i ≠ CallSendMessage m) later →
      run w later = Some (w', t) → count is_send t = 0.
Proof.
  intros Hrun.
  pose proof (run_coherent _ _ _ _ (coherent_constructor address options) Hrun)
    as Hc.
  destruct Hc as (h & Hs & Hlen & Hrest) eqn:E. clear E.
  destruct (lookup_lt_is_Some_2 (sockets w) h) as [rs Hr]; [lia|].
  exists h, rs. rewrite (sendMessage_result msg w h rs Hs Hr). cbn.
  repeat split; try done.
  - by case_decide.
  - intros ->. by rewrite decide_True.
  - intros Hne. by rewrite decide_False.
  - intros later w' t Hin Hlater. by eapply run_no_send.
Qed.

Lemma sendMessage_guarded_witness :
  ∃ w t0,
    run (after (constructor "wss://example.com" None)) [] = Some (w, t0) ∧
    ∃ h rs,
      socket (this w) = Some h ∧ sockets w !! h = Some rs ∧
      outcome (sendMessage "Hello, WebSocket!" w) = inr () ∧
      after (sendMessage "Hello, WebSocket!" w) = w ∧
      count is_invoke (trace (sendMessage "Hello, WebSocket!" w)) = 0 ∧
      (rs = OPEN →
       trace (sendMessage "Hello, WebSocket!" w) =
         [SocketSend h "Hello, WebSocket!";
          ConsoleLog ("[SocketInsight] Sent message: "
                      +:+ "Hello, WebSocket!")]) ∧
      (rs ≠ OPEN →
       trace (sendMessage "Hello, WebSocket!" w) =
         [ConsoleError
            ("[SocketInsight] Cannot send message, WebSocket is not open. "
             +:+ "Current readyState: " +:+ pretty (readyState_code rs))]) ∧
      ∀ later w' t,
        Forall (λ i, ∀ m, i ≠ CallSendMessage m) later →
        run w later = Some (w', t) → count is_send t = 0.
Proof.
  eexists _, _. split; [reflexivity|].
  apply (sendMessage_guarded "wss://example.com" None [] _ []
           "Hello, WebSocket!").
  reflexivity.
Defined.

(** C6, as the claim states it, fails: the close handler decides on the code
    the transport reports, and nothing records that the closure was asked
    for.  A transport closed by [closeConnection] while it is still
    connecting reports its closure with code 1006; the handler arms the
    timer, and the timer reconnects. *)
Lemma closeConnection_closure_can_retry :
  ∃ w t,
    run (after (constructor "wss://example.com" None))
      [CallCloseConnection; Closed 0 (mkCloseEvent 1006 ""); TimerFired]
      = Some (w, t) ∧
    SocketClose 0 1000 "Client closed the connection" ∈ t ∧
    count is_setTimeout t = 1 ∧ count is_connect t = 1 ∧
    sockets w = [CLOSED; CONNECTING] ∧ retryAttempts (this w) = 2%Z.
Proof.
  eexists _, _. split; [vm_compute; reflexivity|].
  split; [apply list_elem_of_here | done].
Qed.

(** C6, amended: in every world reached from a constructor,
    [closeConnection] closes the transport the instance holds with code 1000
    and the reason "Client closed the connection", without throwing and
    without touching the instance or the timers; when the transport reports
    the resulting closure with code 1000, that closure arms no timer and
    opens no transport, in that turn or later. *)
Theorem closeConnection_clean address options inputs w t0 :
  run (after (constructor address options)) inputs = Some (w, t0) →
  ∃ h,
    socket (this w) = Some h ∧
    outcome (closeConnection w) = inr () ∧
    trace (closeConnection w) =
      [SocketClose h 1000 "Client closed the connection";
       ConsoleLog ("[SocketInsight] Closed connection to " +:+ url (this w))] ∧
    this (after (closeConnection w)) = this w ∧
    timers (after (closeConnection w)) = timers w ∧
    ∀ event r,
      code event = 1000%Z →
      step (after (closeConnection w)) (Closed h event) = Some r →
      count is_setTimeout (trace r) = 0 ∧ count is_connect (trace r) = 0 ∧
      timers (after r) = [] ∧
      ∀ later w' t, run (after r) later = Some (w', t) →
                    count is_connect t = 0 ∧ timers w' = [].
Proof.
  intros Hrun.
  pose proof (run_coherent _ _ _ _ (coherent_constructor address options) Hrun)
    as Hc.
  assert (coherent (after (closeConnection w))) as Hc'
    by (by apply (step_coherent w CallCloseConnection)).
  destruct Hc as (h & Hs & Hlen & Hrest) eqn:E. clear E.
  destruct (lookup_lt_is_Some_2 (sockets w) h) as [rs Hr]; [lia|].
  exists h. rewrite (closeConnection_result w h rs Hs Hr) in *. cbn.
  do 5 (split; [done|]). intros event r Hcode Hstep.
  destruct (closed_normally _ _ _ _ Hc' Hcode Hstep)
    as (H1 & H2 & H3 & H4 & Hc2 & Hq).
  do 3 (split; [done|]). intros later w' t Hlater.
  by destruct (run_quiescent later (after r) w' t Hc2 Hq Hlater) as [[? _] ?].
Qed.

Lemma closeConnection_clean_witness :
  ∃ w t0,
    run (after (constructor "wss://example.com" None)) [Opened 0]
      = Some (w, t0) ∧
    trace (closeConnection w) =
      [SocketClose 0 1000 "Client closed the connection";
       ConsoleLog "[SocketInsight] Closed connection to wss://example.com"] ∧
    ∃ h,
      socket (this w) = Some h ∧
      outcome (closeConnection w) = inr () ∧
      trace (closeConnection w) =
        [SocketClose h 1000 "Client closed the connection";
         ConsoleLog ("[SocketInsight] Closed connection to "
                     +:+ url (this w))] ∧
      this (after (closeConnection w)) = this w ∧
      timers (after (closeConnection w)) = timers w ∧
      ∀ event r,
        code event = 1000%Z →
        step (after (closeConnection w)) (Closed h event) = Some r →
        count is_setTimeout (trace r) = 0 ∧ count is_connect (trace r) = 0 ∧
        timers (after r) = [] ∧
        ∀ later w' t, run (after r) later = Some (w', t) →
                      count is_connect t = 0 ∧ timers w' = [].
Proof.
  eexists _, _. split; [vm_compute; reflexivity|].
  split; [vm_compute; reflexivity|].
  eapply (closeConnection_clean "wss://example.com" None [Opened 0]).
  vm_compute; reflexivity.
Defined.

(** ** Registration *)

(** C8: registering [f] and then [g] under the name [e] leaves [g], and only
    [g], stored for [e]; the world is the one in which [f] was never
    registered, and no later turn calls [f] (a callback distinct from [g] that
    is not stored, nor registered afterwards, under a handled name).
    Registering [f] under a name outside open, message, close, error stores
    it, and no later turn calls it. *)
Theorem on_replaces address options inputs w t0 e f g :
  run (after (constructor address options)) inputs = Some (w, t0) →
  f ≠ g →
  (∀ k, k ∈ known_events → k ≠ e → listeners (this w) !! k ≠ Some f) →
  listeners (this (after (on e g (after (on e f w))))) !! e = Some g ∧
  after (on e g (after (on e f w))) = after (on e g w) ∧
  (∀ later w' t,
     Forall (λ i, ∀ k, k ∈ known_events → i ≠ CallOn k f) later →
     run (after (on e g (after (on e f w)))) later = Some (w', t) →
     count (invokes f) t = 0) ∧
  (e ∉ known_events →
   listeners (this (after (on e f w))) !! e = Some f ∧
   ∀ later w' t,
     Forall (λ i, ∀ k, k ∈ known_events → i ≠ CallOn k f) later →
     run (after (on e f w)) later = Some (w', t) →
     count (invokes f) t = 0).
Proof.
  intros Hrun Hfg Hf.
  pose proof (run_coherent _ _ _ _ (coherent_constructor address options) Hrun)
    as Hc.
  assert (coherent (after (on e f w))) as Hc1
    by (by apply (step_coherent w (CallOn e f))).
  assert (coherent (after (on e g (after (on e f w))))) as Hc2
    by (by apply (step_coherent (after (on e f w)) (CallOn e g))).
  split; [|split; [|split]].
  - rewrite !on_after. cbn. apply lookup_insert_eq.
  - rewrite !on_after. unfold set_this, set_listeners. cbn.
    by rewrite insert_insert_eq.
  - intros later w' t Hin Hlater.
    eapply (run_unheard f later); [apply Hc2| |done|done].
    intros k Hk. rewrite !on_after. cbn.
    destruct (decide (e = k)) as [->|Hne].
    + rewrite lookup_insert_eq. congruence.
    + rewrite !lookup_insert_ne by done. apply Hf; [done | congruence].
  - intros He. split.
    + rewrite on_after. cbn. apply lookup_insert_eq.
    + intros later w' t Hin Hlater.
      eapply (run_unheard f later); [apply Hc1| |done|done].
      intros k Hk. rewrite on_after. cbn.
      assert (e ≠ k) as Hne by (intros ->; done).
      rewrite lookup_insert_ne by done. apply Hf; [done | congruence].
Qed.

Lemma on_replaces_witness :
  ∃ w t0,
    run (after (constructor "wss://example.com" None)) [CallOn "open" 7]
      = Some (w, t0) ∧
    listeners (this (after (on "message" 2 (after (on "message" 1 w)))))
      !! "message" = Some 2 ∧
    after (on "message" 2 (after (on "message" 1 w)))
      = after (on "message" 2 w) ∧
    (∀ later w' t,
       Forall (λ i, ∀ k, k ∈ known_events → i ≠ CallOn k 1) later →
       run (after (on "message" 2 (after (on "message" 1 w)))) later
         = Some (w', t) →
       count (invokes 1) t = 0) ∧
    ("message" ∉ known_events →
     listeners (this (after (on "message" 1 w))) !! "message" = Some 1 ∧
     ∀ later w' t,
       Forall (λ i, ∀ k, k ∈ known_events → i ≠ CallOn k 1) later →
       run (after (on "message" 1 w)) later = Some (w', t) →
       count (invokes 1) t = 0).
Proof.
  eexists _, _. split; [vm_compute; reflexivity|].
  eapply (on_replaces "wss://example.com" None [CallOn "open" 7] _ _
            "message" 1 2).
  - vm_compute; reflexivity.
  - lia.
  - intros k Hk Hne. unfold known_events in Hk.
    repeat (apply elem_of_cons in Hk as [->|Hk];
            [first [done | vm_compute; intros [=]]|]).
    by apply elem_of_nil in Hk.
Defined.

(** ** The retry counter *)

(** C9: from any construction whose [retryAttempts] option, if given, is not
    negative, the retry counter is never negative; a turn changes it only
    when the timer fires, and the timer fires only on a positive counter,
    which [this.retryAttempts--] leaves non-negative (it subtracts exactly
    one while the counter is at most 2^53); a timer is pending only while
    the counter is positive; and once it is 0 it stays 0 and no transport is
    opened. *)
Theorem retryAttempts_never_negative address options inputs w t :
  (∀ n, default ∅ options !! "retryAttempts" = Some n → (0 ≤ n)%Z) →
  run (after (constructor address options)) inputs = Some (w, t) →
  (0 ≤ retryAttempts (this w))%Z ∧
  (∀ i r, step w i = Some r →
          retryAttempts (this (after r)) =
            match i with
            | TimerFired => js_decrement (retryAttempts (this w))
            | _ => retryAttempts (this w)
            end) ∧
  (∀ r, step w TimerFired = Some r →
        (0 < retryAttempts (this w))%Z ∧
        (0 ≤ retryAttempts (this (after r)))%Z ∧
        ((retryAttempts (this w) ≤ max_exact)%Z →
         retryAttempts (this (after r)) = (retryAttempts (this w) - 1)%Z)) ∧
  (timers w ≠ [] → (0 < retryAttempts (this w))%Z) ∧
  (retryAttempts (this w) = 0%Z →
   ∀ later w' t', run w later = Some (w', t') →
                  count is_connect t' = 0 ∧ retryAttempts (this w') = 0%Z).
Proof.
  intros Hopt Hrun.
  pose proof (coherent_constructor address options) as Hc0.
  pose proof (run_coherent _ _ _ _ Hc0 Hrun) as Hc.
  split; [|split; [|split; [|split]]].
  - eapply run_budget_nonneg; [apply Hc0| |apply Hrun].
    rewrite constructor_after. cbn.
    destruct (default ∅ options !! "retryAttempts") as [n|] eqn:E; cbn;
      [|lia].
    specialize (Hopt n eq_refl). case_decide; lia.
  - intros i r Hs. by destruct (step_fields w i r Hc Hs) as (_ & _ & ?).
  - intros r Hs.
    destruct (step_fields w _ r Hc Hs) as (_ & _ & Hb).
    destruct (step_inv _ _ _ Hc Hs) as (h & _ & _ & _ & _ & Hpos & _).
    split; [done|]. rewrite Hb. split; [by apply js_decrement_nonneg|].
    intros Hmax. apply js_decrement_exact. lia.
  - intros Ht. destruct Hc as (h & _ & _ & _ & [Ht'|(_ & _ & Hpos)]); done.
  - intros Hz later w' t' Hlater.
    by destruct (run_exhausted later w w' t' Hc Hz Hlater).
Qed.

Lemma retryAttempts_never_negative_witness :
  ∃ w t,
    run (after (constructor "wss://example.com"
                  (Some {[ "retryAttempts" := 1%Z ]})))
      [Closed 0 (mkCloseEvent 1006 ""); TimerFired] = Some (w, t) ∧
    retryAttempts (this w) = 0%Z ∧
    (0 ≤ retryAttempts (this w))%Z ∧
    (∀ i r, step w i = Some r →
            retryAttempts (this (after r)) =
              match i with
              | TimerFired => js_decrement (retryAttempts (this w))
              | _ => retryAttempts (this w)
              end) ∧
    (∀ r, step w TimerFired = Some r →
          (0 < retryAttempts (this w))%Z ∧
          (0 ≤ retryAttempts (this (after r)))%Z ∧
          ((retryAttempts (this w) ≤ max_exact)%Z →
           retryAttempts (this (after r)) = (retryAttempts (this w) - 1)%Z)) ∧
    (timers w ≠ [] → (0 < retryAttempts (this w))%Z) ∧
    (retryAttempts (this w) = 0%Z →
     ∀ later w' t', run w later = Some (w', t') →
                    count is_connect t' = 0 ∧ retryAttempts (this w') = 0%Z).
Proof.
  eexists _, _. split; [vm_compute; reflexivity|]. split; [reflexivity|].
  eapply (retryAttempts_never_negative "wss://example.com"
            (Some {[ "retryAttempts" := 1%Z ]})
            [Closed 0 (mkCloseEvent 1006 ""); TimerFired]).
  - intros n. vm_compute. intros [= <-]. discriminate.
  - vm_compute; reflexivity.
Defined.

(** ** Reconnecting after abnormal closures *)

(** With [retryAttempts: N] for a positive [N] up to 2^53, abnormal closures
    are answered by exactly [N] reconnects: the run in which every transport
    closes abnormally and every timer fires makes [N] of them and comes to
    rest, and no run with abnormal closures only makes more, or comes to rest
    with fewer. *)
Lemma positive_retryAttempts_reconnects address (options : gmap string Z) N event :
  options !! "retryAttempts" = Some (Z.of_nat N) → 0 < N →
  (Z.of_nat N ≤ max_exact)%Z →
  code event ≠ 1000%Z →
  (∃ w t, run (after (constructor address (Some options)))
              (closures 0 N event) = Some (w, t) ∧
          quiescent w ∧ count is_connect t = N) ∧
  (∀ inputs w t,
     Forall (λ i, is_abnormal i = true) inputs →
     run (after (constructor address (Some options))) inputs = Some (w, t) →
     count is_connect t ≤ N ∧ (quiescent w → count is_connect t = N)).
Proof.
  intros Hopt HN Hmax Hcode.
  pose proof (coherent_constructor address (Some options)) as Hc.
  assert (retryAttempts (this (after (constructor address (Some options))))
          = Z.of_nat N) as Hb.
  { rewrite constructor_after. cbn. rewrite Hopt. cbn.
    case_decide; [lia | done]. }
  split.
  - destruct (closures_run N (after (constructor address (Some options)))
                0 CONNECTING event) as (w & t & Hrun & Hq & Hn & _);
      try done.
    by exists w, t.
  - intros inputs w t Hin Hrun.
    assert (retryAttempts (this (after (constructor address (Some options))))
            ≤ max_exact)%Z as Hmax' by lia.
    pose proof (run_budget _ _ _ _ Hc Hmax' Hrun) as Hacc.
    rewrite Hb in Hacc.
    assert (0 ≤ retryAttempts (this w))%Z as Hge.
    { eapply run_budget_nonneg; [apply Hc| |apply Hrun]. lia. }
    split; [lia|]. intros Hq.
    assert (retryAttempts (this w) = 0%Z) as Hz; [|lia].
    eapply (run_abnormal_rest inputs); [apply Hc| | |done|apply Hrun|done].
    + lia.
    + intros [_ Hall]. rewrite constructor_after in Hall. cbn in Hall.
      by rewrite Forall_singleton in Hall.
Qed.

(** C1, at [N = 0]: constructed with [{retryAttempts: 0}], the instance
    answers abnormal closures with three reconnects, not with none: the
    counter starts at 3, so the first closure already arms the timer, and
    the instance comes to rest only after the fourth closure, in this run
    and in every run whose closures are all abnormal. *)
Theorem zero_retryAttempts_reconnects_thrice address :
  ∃ w t,
    run (after (constructor address (Some {[ "retryAttempts" := 0%Z ]})))
      (closures 0 3 (mkCloseEvent 1006 "")) = Some (w, t) ∧
    count is_connect t = 3 ∧ quiescent w ∧
    ∀ inputs w' t',
      Forall (λ i, is_abnormal i = true) inputs →
      run (after (constructor address (Some {[ "retryAttempts" := 0%Z ]})))
        inputs = Some (w', t') →
      quiescent w' → count is_connect t' = 3.
Proof.
  pose proof (coherent_constructor address
                (Some {[ "retryAttempts" := 0%Z ]})) as Hc.
  assert (retryAttempts
            (this (after (constructor address
                            (Some {[ "retryAttempts" := 0%Z ]}))))
          = Z.of_nat 3) as Hb by (by rewrite constructor_after).
  assert (Z.of_nat 3 ≤ max_exact)%Z as Hmax by done.
  destruct (closures_run 3 _ 0 CONNECTING (mkCloseEvent 1006 "") Hc)
    as (w & t & Hrun & Hq & Hn & _); try done.
  exists w, t. repeat split; try done; try apply Hq.
  intros inputs w' t' Hin Hrun' Hq'.
  rewrite <- Hb in Hmax.
  pose proof (run_budget _ _ _ _ Hc Hmax Hrun') as Hacc. rewrite Hb in Hacc.
  assert (retryAttempts (this w') = 0%Z) as Hz; [|lia].
  eapply (run_abnormal_rest inputs); [apply Hc| | |done|apply Hrun'|done].
  - lia.
  - intros [_ Hall]. rewrite constructor_after in Hall. cbn in Hall.
    by rewrite Forall_singleton in Hall.
Qed.

(** * Further properties of the class *)

(** ** What a single turn does *)

Lemma step_outcome w i r :
  coherent w → step w i = Some r → outcome r = inr ().
Proof.
  intros Hc Hs. step_cases Hc Hs h; try done.
  - monad_unfold. by destruct (listeners _ !! "open").
  - monad_unfold. by destruct (listeners _ !! "message").
  - apply handleClose_outcome.
  - monad_unfold. by destruct (listeners _ !! "error").
Qed.

(** Timers are armed one at a time and each is used up by one reconnect. *)
Lemma step_timers w i r :
  coherent w → step w i = Some r →
  length (timers (after r)) + count is_connect (trace r)
  = length (timers w) + count is_setTimeout (trace r).
Proof.
  intros Hc Hs. pose proof (step_connects w i r Hc Hs) as Hn. rewrite Hn.
  clear Hn. step_cases Hc Hs h;
    rewrite ?handleOpen_after, ?handleMessage_after, ?handleClose_after,
      ?handleError_after, ?retryTimer_after, ?on_after;
    rewrite ?handleOpen_trace, ?handleMessage_trace, ?handleClose_trace,
      ?handleError_trace, ?retryTimer_trace, ?on_trace; cbn.
  - by destruct (listeners _ !! "open").
  - by destruct (listeners _ !! "message").
  - destruct (wants_retry _ _), (listeners _ !! "close"); cbn;
      rewrite ?length_app; cbn; lia.
  - by destruct (listeners _ !! "error").
  - match goal with H : timers w = [_] |- _ => rewrite H end. done.
  - by case_decide.
  - done.
  - done.
Qed.

(** The transports a turn opens, and the handlers it attaches. *)
Lemma step_opens w i r name :
  coherent w → step w i = Some r → name ∈ known_events →
  url (this (after r)) = url (this w) ∧
  match i with
  | TimerFired =>
      length (sockets (after r)) = S (length (sockets w)) ∧
      List.filter is_connect (trace r)
        = [NewWebSocket (length (sockets w)) (url (this w))] ∧
      List.filter (is_listen name) (trace r)
        = [AddEventListener (length (sockets w)) name]
  | _ =>
      length (sockets (after r)) = length (sockets w) ∧
      List.filter is_connect (trace r) = [] ∧
      List.filter (is_listen name) (trace r) = []
  end.
Proof.
  intros Hc Hs Hname.
  destruct (step_fields w i r Hc Hs) as (Hu & _ & _). split; [done|].
  clear Hu. step_cases Hc Hs h;
    rewrite ?handleOpen_after, ?handleMessage_after, ?handleClose_after,
      ?handleError_after, ?retryTimer_after, ?on_after;
    rewrite ?handleOpen_trace, ?handleMessage_trace, ?handleClose_trace,
      ?handleError_trace, ?retryTimer_trace, ?on_trace; cbn;
    rewrite ?length_insert, ?length_app; cbn.
  - by destruct (listeners _ !! "open").
  - by destruct (listeners _ !! "message").
  - destruct (wants_retry _ _), (listeners _ !! "close"); cbn;
      by rewrite ?length_insert.
  - by destruct (listeners _ !! "error").
  - split; [lia|]. split; [done|].
    unfold known_events in Hname.
    repeat (apply elem_of_cons in Hname as [->|Hname]; [done|]).
    by apply elem_of_nil in Hname.
  - by case_decide.
  - done.
  - done.
Qed.

Lemma step_opens_seq w i r name :
  coherent w → step w i = Some r → name ∈ known_events →
  url (this (after r)) = url (this w) ∧
  length (sockets w) ≤ length (sockets (after r)) ∧
  List.filter is_connect (trace r)
    = List.map (λ h, NewWebSocket h (url (this w)))
        (seq (length (sockets w))
           (length (sockets (after r)) - length (sockets w))) ∧
  List.filter (is_listen name) (trace r)
    = List.map (λ h, AddEventListener h name)
        (seq (length (sockets w))
           (length (sockets (after r)) - length (sockets w))).
Proof.
  intros Hc Hs Hname.
  destruct (step_opens w i r name Hc Hs Hname) as [Hu Hi].
  split; [done|].
  destruct i; destruct Hi as (Hl & H1 & H2); rewrite Hl, H1, H2;
    rewrite ?Nat.sub_diag; try (split; [lia | done]).
  replace (S (length (sockets w)) - length (sockets w)) with 1 by lia.
  split; [lia | done].
Qed.

(** ** What a run does *)

(** Transports are opened with consecutive handles, each to the address of
    the instance and each with its four handlers. *)
Lemma run_opens name inputs : ∀ w w' t,
  coherent w → name ∈ known_events → run w inputs = Some (w', t) →
  url (this w') = url (this w) ∧
  length (sockets w) ≤ length (sockets w') ∧
  List.filter is_connect t
    = List.map (λ h, NewWebSocket h (url (this w)))
        (seq (length (sockets w)) (length (sockets w') - length (sockets w))) ∧
  List.filter (is_listen name) t
    = List.map (λ h, AddEventListener h name)
        (seq (length (sockets w)) (length (sockets w') - length (sockets w))).
Proof.
  induction inputs as [|i rest IH]; intros w w' t Hc Hname Hrun.
  - cbn in Hrun. injection Hrun as <- <-. rewrite Nat.sub_diag. by cbn.
  - apply run_cons in Hrun as (r & t' & Hs & Hrest & ->).
    destruct (step_opens_seq w i r name Hc Hs Hname) as (Hu & Hl & H1 & H2).
    destruct (IH (after r) w' t' (step_coherent _ _ _ Hc Hs) Hname Hrest)
      as (Hu' & Hl' & H1' & H2').
    split; [congruence|]. split; [lia|].
    rewrite !List.filter_app, H1, H2, H1', H2', Hu, <- !List.map_app.
    replace (length (sockets w') - length (sockets w))
      with ((length (sockets (after r)) - length (sockets w))
            + (length (sockets w') - length (sockets (after r)))) by lia.
    rewrite seq_app.
    replace (length (sockets w)
             + (length (sockets (after r)) - length (sockets w)))
      with (length (sockets (after r))) by lia.
    done.
Qed.

Lemma run_timers inputs : ∀ w w' t,
  coherent w → run w inputs = Some (w', t) →
  length (timers w') + count is_connect t
  = length (timers w) + count is_setTimeout t.
Proof.
  induction inputs as [|i rest IH]; intros w w' t Hc Hrun.
  - cbn in Hrun. injection Hrun as <- <-. cbn. lia.
  - apply run_cons in Hrun as (r & t' & Hs & Hrest & ->).
    pose proof (step_timers w i r Hc Hs) as H1.
    pose proof (IH (after r) w' t' (step_coherent _ _ _ Hc Hs) Hrest) as H2.
    rewrite !count_app. lia.
Qed.

(** ** The lifetime of an instance *)

(** X1: for an instance whose retry counter starts at no more than 2^53
    (where [this.retryAttempts--] is exact), over its whole life every
    reconnect costs one unit of the counter and nothing gives a unit back:
    the counter plus the number of reconnects made so far is the counter set
    by the constructor.  So with a non-negative option (or none) the
    reconnects never exceed it. *)
Theorem lifetime_reconnects address options inputs w t :
  (or_default (default ∅ options !! "retryAttempts") 3 ≤ max_exact)%Z →
  run (after (constructor address options)) inputs = Some (w, t) →
  (retryAttempts (this w) + Z.of_nat (count is_connect t))%Z
  = or_default (default ∅ options !! "retryAttempts") 3 ∧
  ((∀ n, default ∅ options !! "retryAttempts" = Some n → (0 ≤ n)%Z) →
   (Z.of_nat (count is_connect t)
    ≤ or_default (default ∅ options !! "retryAttempts") 3)%Z).
Proof.
  intros Hmax Hrun.
  pose proof (coherent_constructor address options) as Hc.
  assert (retryAttempts (this (after (constructor address options)))
          ≤ max_exact)%Z as Hmax' by (by rewrite constructor_after).
  pose proof (run_budget _ _ _ _ Hc Hmax' Hrun) as Hacc.
  rewrite constructor_after in Hacc. cbn in Hacc. split; [done|].
  intros Hopt.
  assert (0 ≤ retryAttempts (this w))%Z; [|lia].
  eapply run_budget_nonneg; [apply Hc| |apply Hrun].
  rewrite constructor_after. cbn.
  destruct (default ∅ options !! "retryAttempts") as [n|] eqn:E; cbn; [|lia].
  specialize (Hopt n eq_refl). case_decide; lia.
Qed.

Lemma lifetime_reconnects_witness :
  ∃ w t,
    run (after (constructor "wss://example.com" None))
      [Opened 0; Closed 0 (mkCloseEvent 1006 ""); TimerFired; Opened 1]
      = Some (w, t) ∧
    count is_connect t = 1 ∧
    (retryAttempts (this w) + Z.of_nat (count is_connect t))%Z = 3%Z.
Proof.
  eexists _, _. split; [vm_compute; reflexivity|]. split; [reflexivity|].
  eapply (lifetime_reconnects "wss://example.com" None
            [Opened 0; Closed 0 (mkCloseEvent 1006 ""); TimerFired; Opened 1]).
  - vm_compute. discriminate.
  - vm_compute; reflexivity.
Defined.

(** X2: at any moment the instance holds the newest transport it opened,
    every older transport has reported its closure, at most one retry timer
    is pending, and while one is pending the held transport is closed too:
    never two live transports, never two pending reconnects. *)
Theorem single_live_transport address options inputs w t :
  run (after (constructor address options)) inputs = Some (w, t) →
  ∃ h,
    socket (this w) = Some h ∧ length (sockets w) = S h ∧
    h = count is_connect t ∧
    (∀ j, j < h → sockets w !! j = Some CLOSED) ∧
    length (timers w) ≤ 1 ∧
    (timers w ≠ [] → sockets w !! h = Some CLOSED).
Proof.
  intros Hrun.
  pose proof (coherent_constructor address options) as Hc0.
  destruct (run_coherent _ _ _ _ Hc0 Hrun) as (h & Hs & Hlen & Hold & Ht).
  assert ("open" ∈ known_events) as Hopen by constructor.
  destruct (run_opens "open" inputs _ _ _ Hc0 Hopen Hrun) as (_ & _ & H1 & _).
  exists h. repeat split; try done.
  - unfold count. rewrite H1, length_map, length_seq, Hlen.
    rewrite constructor_after. cbn. lia.
  - destruct Ht as [->|(-> & _)]; cbn; lia.
  - intros Hne. by destruct Ht as [?|(_ & ? & _)].
Qed.

Lemma single_live_transport_witness :
  ∃ w t,
    run (after (constructor "wss://example.com" None))
      [Closed 0 (mkCloseEvent 1006 ""); TimerFired;
       Closed 1 (mkCloseEvent 1006 "")] = Some (w, t) ∧
    ∃ h,
      socket (this w) = Some h ∧ length (sockets w) = S h ∧
      h = count is_connect t ∧
      (∀ j, j < h → sockets w !! j = Some CLOSED) ∧
      length (timers w) ≤ 1 ∧
      (timers w ≠ [] → sockets w !! h = Some CLOSED).
Proof.
  eexists _, _. split; [vm_compute; reflexivity|].
  eapply (single_live_transport "wss://example.com" None
            [Closed 0 (mkCloseEvent 1006 ""); TimerFired;
             Closed 1 (mkCloseEvent 1006 "")]).
  vm_compute; reflexivity.
Defined.

(** X3: every transport of an instance, the first one included, is opened
    to the address given to the constructor; the handles are 0, 1, 2, ... in
    the order of opening, and each transport gets the handler of each of the
    four events attached exactly once. *)
Theorem transports_opened_in_order address options inputs w t name :
  run (after (constructor address options)) inputs = Some (w, t) →
  name ∈ known_events →
  List.filter is_connect (trace (constructor address options) ++ t)
    = List.map (λ h, NewWebSocket h address) (seq 0 (length (sockets w))) ∧
  List.filter (is_listen name) (trace (constructor address options) ++ t)
    = List.map (λ h, AddEventListener h name) (seq 0 (length (sockets w))).
Proof.
  intros Hrun Hname.
  pose proof (coherent_constructor address options) as Hc0.
  destruct (run_opens name inputs _ _ _ Hc0 Hname Hrun) as (_ & Hl & H1 & H2).
  rewrite !List.filter_app, H1, H2. rewrite constructor_after in *.
  cbn [this sockets url length] in *.
  replace (length (sockets w)) with (S (length (sockets w) - 1)) at 2 4 by lia.
  cbn [seq List.map]. split; [done|].
  f_equal. unfold constructor. rewrite connect_trace. cbn.
  unfold known_events in Hname.
  repeat (apply elem_of_cons in Hname as [->|Hname]; [done|]).
  by apply elem_of_nil in Hname.
Qed.

Lemma transports_opened_in_order_witness :
  ∃ w t,
    run (after (constructor "wss://example.com" None))
      [Closed 0 (mkCloseEvent 1006 ""); TimerFired] = Some (w, t) ∧
    length (sockets w) = 2 ∧
    List.filter is_connect (trace (constructor "wss://example.com" None) ++ t)
      = List.map (λ h, NewWebSocket h "wss://example.com")
          (seq 0 (length (sockets w))) ∧
    List.filter (is_listen "close")
      (trace (constructor "wss://example.com" None) ++ t)
      = List.map (λ h, AddEventListener h "close")
          (seq 0 (length (sockets w))).
Proof.
  eexists _, _. split; [vm_compute; reflexivity|]. split; [reflexivity|].
  eapply (transports_opened_in_order "wss://example.com" None
            [Closed 0 (mkCloseEvent 1006 ""); TimerFired] _ _ "close").
  - vm_compute; reflexivity.
  - unfold known_events. do 2 constructor. constructor.
Defined.

Lemma run_never_retries inputs : ∀ w w' t,
  coherent w → (retryAttempts (this w) < 0)%Z →
  run w inputs = Some (w', t) →
  retryAttempts (this w') = retryAttempts (this w) ∧ timers w' = [] ∧
  count is_connect t = 0 ∧ count is_setTimeout t = 0.
Proof.
  induction inputs as [|i rest IH]; intros w w' t Hc Hneg Hrun.
  - cbn in Hrun. injection Hrun as <- <-. repeat split; try done.
    destruct Hc as (h & _ & _ & _ & [Ht|(_ & _ & Hpos)]); [done | lia].
  - apply run_cons in Hrun as (r & t' & Hs & Hrest & ->).
    assert (timers w = []) as Ht.
    { destruct Hc as (h & _ & _ & _ & [Ht|(_ & _ & Hpos)]); [done | lia]. }
    assert (i ≠ TimerFired) as Hi.
    { intros ->. cbn in Hs. by rewrite Ht in Hs. }
    pose proof (step_coherent _ _ _ Hc Hs) as Hc'.
    destruct (step_fields w i r Hc Hs) as (_ & _ & Hb).
    assert (retryAttempts (this (after r)) = retryAttempts (this w)) as Hb'
      by (by destruct i).
    pose proof (step_connects w i r Hc Hs) as Hn.
    assert (count is_connect (trace r) = 0) as Hn' by (by destruct i).
    pose proof (step_timers w i r Hc Hs) as Htm.
    assert (timers (after r) = []) as Ht'.
    { destruct Hc' as (h & _ & _ & _ & [?|(_ & _ & Hpos)]); [done | lia]. }
    rewrite Ht, Ht', Hn' in Htm. cbn in Htm.
    destruct (IH (after r) w' t' Hc') as (H1 & H2 & H3 & H4);
      [lia | done |].
    rewrite !count_app. repeat split; try done; lia.
Qed.

(** X4: a negative [retryAttempts] is truthy, so the constructor keeps it,
    and the guard [this.retryAttempts > 0] then never holds: the instance
    never arms a timer and never reconnects, whatever closes its transport,
    and the counter keeps its negative value. *)
Theorem negative_retryAttempts_never_reconnects
    address options n inputs w t :
  default ∅ options !! "retryAttempts" = Some n → (n < 0)%Z →
  run (after (constructor address options)) inputs = Some (w, t) →
  retryAttempts (this w) = n ∧ timers w = [] ∧
  count is_connect t = 0 ∧ count is_setTimeout t = 0.
Proof.
  intros Hopt Hn Hrun.
  pose proof (coherent_constructor address options) as Hc0.
  assert (retryAttempts (this (after (constructor address options))) = n)
    as Hb.
  { rewrite constructor_after. cbn. rewrite Hopt. cbn.
    case_decide; [lia | done]. }
  assert (retryAttempts (this (after (constructor address options))) < 0)%Z
    as Hneg by lia.
  destruct (run_never_retries inputs _ _ _ Hc0 Hneg Hrun)
    as (H1 & H2 & H3 & H4).
  repeat split; try done. congruence.
Qed.

Lemma negative_retryAttempts_never_reconnects_witness :
  ∃ w t,
    run (after (constructor "wss://example.com"
                  (Some {[ "retryAttempts" := (-1)%Z ]})))
      [Opened 0; Closed 0 (mkCloseEvent 1006 "")] = Some (w, t) ∧
    retryAttempts (this w) = (-1)%Z ∧ timers w = [] ∧
    count is_connect t = 0 ∧ count is_setTimeout t = 0.
Proof.
  eexists _, _. split; [vm_compute; reflexivity|].
  eapply (negative_retryAttempts_never_reconnects "wss://example.com"
            (Some {[ "retryAttempts" := (-1)%Z ]}) (-1)
            [Opened 0; Closed 0 (mkCloseEvent 1006 "")]).
  - vm_compute; reflexivity.
  - lia.
  - vm_compute; reflexivity.
Defined.

(** ** Dispatch *)

Lemma step_Received_live w h event :
  sockets w !! h = Some OPEN →
  step w (Received h event) = Some (handleMessage event w).
Proof. intros Hr. cbn. by rewrite Hr. Qed.

(** X5: messages arriving on an open transport are handed to the [message]
    callback one call per message, each with its payload unchanged, in the
    order of arrival; the instance itself is left as it was.  With no
    [message] callback stored nothing is called. *)
Theorem messages_forwarded_in_order w h events :
  sockets w !! h = Some OPEN →
  ∃ t,
    run w (List.map (Received h) events) = Some (w, t) ∧
    List.filter is_invoke t =
      match listeners (this w) !! "message" with
      | Some f => List.map (λ ev, Invoke f [VStr (data ev)]) events
      | None => []
      end ∧
    count is_send t = 0.
Proof.
  intros Hr. induction events as [|ev rest (t & Hrun & Hinv & Hsend)].
  - exists []. by destruct (listeners (this w) !! "message").
  - cbn [List.map run]. rewrite (step_Received_live w h ev Hr).
    rewrite handleMessage_after, Hrun, handleMessage_trace.
    eexists. split; [done|]. rewrite count_app, Hsend.
    rewrite List.filter_app, Hinv.
    by destruct (listeners (this w) !! "message").
Qed.

Lemma messages_forwarded_in_order_witness :
  ∃ t,
    run (mkWorld (mkSocketInsight "wss://example.com" 3 1000
                    {[ "message" := 5 ]} (Some 0)) [OPEN] [])
      (List.map (Received 0) [mkMessageEvent "ping"; mkMessageEvent "pong"])
      = Some (mkWorld (mkSocketInsight "wss://example.com" 3 1000
                         {[ "message" := 5 ]} (Some 0)) [OPEN] [], t) ∧
    List.filter is_invoke t =
      match ({[ "message" := 5 ]} : gmap string callback) !! "message" with
      | Some f =>
          List.map (λ ev, Invoke f [VStr (data ev)])
            [mkMessageEvent "ping"; mkMessageEvent "pong"]
      | None => []
      end ∧
    count is_send t = 0.
Proof.
  exact (messages_forwarded_in_order
           (mkWorld (mkSocketInsight "wss://example.com" 3 1000
                       {[ "message" := 5 ]} (Some 0)) [OPEN] []) 0
           [mkMessageEvent "ping"; mkMessageEvent "pong"] eq_refl).
Defined.

(** X6: a callback registered with [on] under one of the four handled names
    is the one the handler of that event calls, with the event's arguments;
    registered under any other name it changes nothing in what the handler
    calls. *)
Theorem dispatch_after_on w e f (m : MessageEvent) (c : CloseEvent)
    (err : ErrorEvent) :
  List.filter is_invoke (trace (handleOpen (after (on e f w)))) =
    (if decide (e = "open") then [Invoke f []]
     else List.filter is_invoke (trace (handleOpen w))) ∧
  List.filter is_invoke (trace (handleMessage m (after (on e f w)))) =
    (if decide (e = "message") then [Invoke f [VStr (data m)]]
     else List.filter is_invoke (trace (handleMessage m w))) ∧
  List.filter is_invoke (trace (handleClose c (after (on e f w)))) =
    (if decide (e = "close") then [Invoke f [VNum (code c); VStr (reason c)]]
     else List.filter is_invoke (trace (handleClose c w))) ∧
  List.filter is_invoke (trace (handleError err (after (on e f w)))) =
    (if decide (e = "error") then [Invoke f [VError err]]
     else List.filter is_invoke (trace (handleError err w))).
Proof.
  rewrite !handleOpen_trace, !handleMessage_trace, !handleClose_trace,
    !handleError_trace, on_after.
  unfold wants_retry. cbn [this set_this set_listeners listeners
                           retryAttempts].
  repeat split; case_decide as He; subst;
    rewrite ?lookup_insert_eq, ?lookup_insert_ne by done; try done;
    by destruct (bool_decide (code c ≠ 1000%Z) &&
                 bool_decide (0 < retryAttempts (this w))%Z),
         (listeners (this w) !! "close").
Qed.

(** ** Closing and sending *)

(** X7: [closeConnection] does not cancel a pending retry: called between an
    abnormal closure and the firing of the timer, it leaves the timer armed,
    and when the timer fires [this.retryAttempts--] is applied to the counter
    (one less, for a counter up to 2^53) and a new transport is opened and
    held, in state CONNECTING. *)
Theorem closeConnection_keeps_pending_retry address options inputs w t0 :
  run (after (constructor address options)) inputs = Some (w, t0) →
  timers w ≠ [] →
  timers (after (closeConnection w)) = timers w ∧
  ∃ r,
    step (after (closeConnection w)) TimerFired = Some r ∧
    count is_connect (trace r) = 1 ∧
    retryAttempts (this (after r)) = js_decrement (retryAttempts (this w)) ∧
    ((retryAttempts (this w) ≤ max_exact)%Z →
     retryAttempts (this (after r)) = (retryAttempts (this w) - 1)%Z) ∧
    socket (this (after r)) = Some (length (sockets w)) ∧
    sockets (after r) !! length (sockets w) = Some CONNECTING.
Proof.
  intros Hrun Hne.
  pose proof (run_coherent _ _ _ _ (coherent_constructor address options) Hrun)
    as Hc.
  destruct Hc as (h & Hs & Hlen & Hold & [Ht|(Ht & Hcl & Hpos)]); [done|].
  rewrite (closeConnection_result w h CLOSED Hs Hcl). cbn.
  split; [done|]. rewrite Ht. eexists. split; [done|].
  rewrite retryTimer_trace, retryTimer_after. cbn.
  rewrite length_insert. do 2 (split; [done|]).
  split; [intros Hmax; apply js_decrement_exact; lia|]. split; [done|].
  rewrite lookup_app_r; rewrite length_insert; [|lia].
  by rewrite Nat.sub_diag.
Qed.

Lemma closeConnection_keeps_pending_retry_witness :
  ∃ w t0,
    run (after (constructor "wss://example.com" None))
      [Opened 0; Closed 0 (mkCloseEvent 1006 "")] = Some (w, t0) ∧
    timers (after (closeConnection w)) = timers w ∧
    ∃ r,
      step (after (closeConnection w)) TimerFired = Some r ∧
      count is_connect (trace r) = 1 ∧
      retryAttempts (this (after r)) = js_decrement (retryAttempts (this w)) ∧
      ((retryAttempts (this w) ≤ max_exact)%Z →
       retryAttempts (this (after r)) = (retryAttempts (this w) - 1)%Z) ∧
      socket (this (after r)) = Some (length (sockets w)) ∧
      sockets (after r) !! length (sockets w) = Some CONNECTING.
Proof.
  eexists _, _. split; [vm_compute; reflexivity|].
  eapply (closeConnection_keeps_pending_retry "wss://example.com" None
            [Opened 0; Closed 0 (mkCloseEvent 1006 "")]).
  - vm_compute; reflexivity.
  - discriminate.
Defined.

(** X8: once [closeConnection] has been called, [sendMessage] hands nothing
    to the transport, in the same turn or in any later one, until a retry
    timer fires and opens a new transport. *)
Theorem no_send_after_closeConnection address options inputs w t0 later w' t :
  run (after (constructor address options)) inputs = Some (w, t0) →
  Forall (λ i, is_timerFired i = false) later →
  run (after (closeConnection w)) later = Some (w', t) →
  count is_send t = 0.
Proof.
  intros Hrun Hlater Hrun'.
  pose proof (run_coherent _ _ _ _ (coherent_constructor address options) Hrun)
    as Hc.
  assert (coherent (after (closeConnection w))) as Hc'
    by (by apply (step_coherent w CallCloseConnection)).
  apply Forall_count_zero.
  apply (run_preserves
           (λ w, ∃ h rs, socket (this w) = Some h ∧ sockets w !! h = Some rs ∧
                         rs ≠ CONNECTING ∧ rs ≠ OPEN)
           (λ i, is_timerFired i = false) (λ e, is_send e = false))
    with (inputs := later) (w := after (closeConnection w)) (w' := w');
    try done.
  - clear. intros w i r Hc (h0 & rs & Hs0 & Hr & Hn1 & Hn2) Hi Hs.
    step_cases Hc Hs h;
      rewrite ?handleOpen_after, ?handleMessage_after, ?handleClose_after,
        ?handleError_after, ?retryTimer_after, ?on_after;
      rewrite ?handleOpen_trace, ?handleMessage_trace, ?handleClose_trace,
        ?handleError_trace, ?retryTimer_trace, ?on_trace; try done;
      assert (h0 = h) as -> by congruence.
    + congruence.
    + split; [by exists h, rs|]. cbn.
      destruct (listeners _ !! "message"); by repeat constructor.
    + split.
      * exists h, CLOSED. destruct (wants_retry _ _); cbn;
          rewrite list_lookup_insert_eq by lia; by repeat split.
      * cbn. destruct (wants_retry _ _), (listeners _ !! "close");
          by repeat constructor.
    + split; [by exists h, rs|]. cbn.
      destruct (listeners _ !! "error"); by repeat constructor.
    + cbn. split; [by exists h, rs|].
      assert (x = rs) as -> by congruence.
      rewrite decide_False by done. by repeat constructor.
    + cbn. split; [|by repeat constructor].
      assert (x = rs) as -> by congruence.
      exists h, (if decide (rs = CLOSED) then CLOSED else CLOSING).
      rewrite list_lookup_insert_eq by lia.
      repeat split; try done; by case_decide.
    + cbn. split; [by exists h, rs | done].
  - destruct Hc as (h & Hs & Hlen & _).
    destruct (lookup_lt_is_Some_2 (sockets w) h) as [rs Hr]; [lia|].
    rewrite (closeConnection_result w h rs Hs Hr). cbn.
    exists h, (if decide (rs = CLOSED) then CLOSED else CLOSING).
    rewrite list_lookup_insert_eq by lia.
    repeat split; try done; by case_decide.
Qed.

Lemma no_send_after_closeConnection_witness :
  ∃ w t0 w' t,
    run (after (constructor "wss://example.com" None)) [Opened 0]
      = Some (w, t0) ∧
    count is_send (trace (sendMessage "hello" w)) = 1 ∧
    run (after (closeConnection w)) [CallSendMessage "hello"] = Some (w', t) ∧
    count is_send t = 0.
Proof.
  eexists _, _, _, _. split; [vm_compute; reflexivity|].
  split; [vm_compute; reflexivity|].
  split; [vm_compute; reflexivity|].
  eapply (no_send_after_closeConnection "wss://example.com" None [Opened 0]
            _ _ [CallSendMessage "hello"]).
  - vm_compute; reflexivity.
  - by repeat constructor.
  - vm_compute; reflexivity.
Defined.

(** ** Timers and reconnects *)

Lemma run_connects_timerFired inputs : ∀ w w' t,
  coherent w → run w inputs = Some (w', t) →
  count is_connect t = length (List.filter is_timerFired inputs).
Proof.
  induction inputs as [|i rest IH]; intros w w' t Hc Hrun.
  - cbn in Hrun. by injection Hrun as <- <-.
  - apply run_cons in Hrun as (r & t' & Hs & Hrest & ->).
    rewrite count_app, (step_connects w i r Hc Hs).
    rewrite (IH (after r) w' t' (step_coherent _ _ _ Hc Hs) Hrest).
    by destruct i.
Qed.

(** X9: a transport is opened only in the turn in which a retry timer fires,
    one per firing, never inside the close handler itself; and every timer
    the close handler arms is either still pending or has produced exactly
    one reconnect. *)
Theorem reconnects_follow_timers address options inputs w t :
  run (after (constructor address options)) inputs = Some (w, t) →
  count is_connect t = length (List.filter is_timerFired inputs) ∧
  count is_setTimeout t = count is_connect t + length (timers w).
Proof.
  intros Hrun.
  pose proof (coherent_constructor address options) as Hc0.
  split; [by eapply run_connects_timerFired|].
  pose proof (run_timers _ _ _ _ Hc0 Hrun) as H.
  rewrite constructor_after in H. cbn in H. lia.
Qed.

Lemma reconnects_follow_timers_witness :
  ∃ w t,
    run (after (constructor "wss://example.com" None))
      [Closed 0 (mkCloseEvent 1006 ""); TimerFired;
       Closed 1 (mkCloseEvent 1001 "")] = Some (w, t) ∧
    count is_setTimeout t = 2 ∧
    count is_connect t
    = length (List.filter is_timerFired
                [Closed 0 (mkCloseEvent 1006 ""); TimerFired;
                 Closed 1 (mkCloseEvent 1001 "")]) ∧
    count is_setTimeout t = count is_connect t + length (timers w).
Proof.
  eexists _, _. split; [vm_compute; reflexivity|]. split; [reflexivity|].
  eapply (reconnects_follow_timers "wss://example.com" None
            [Closed 0 (mkCloseEvent 1006 ""); TimerFired;
             Closed 1 (mkCloseEvent 1001 "")]).
  vm_compute; reflexivity.
Defined.

(** X10: an abnormal closure does not touch the retry counter and opens
    nothing by itself.  With a positive counter it arms one timer with the
    configured delay, and the counter changes only when that timer fires and
    reconnects, by [this.retryAttempts--] (one less, for a counter up to
    2^53); with a counter that is not positive it arms nothing and the
    instance is at rest. *)
Theorem abnormal_closure_retries address options inputs w t0 h event r :
  run (after (constructor address options)) inputs = Some (w, t0) →
  code event ≠ 1000%Z →
  step w (Closed h event) = Some r →
  count is_connect (trace r) = 0 ∧
  retryAttempts (this (after r)) = retryAttempts (this w) ∧
  ((0 < retryAttempts (this w))%Z →
   timers (after r) = [retryDelay (this w)] ∧
   count is_setTimeout (trace r) = 1 ∧
   ∃ r', step (after r) TimerFired = Some r' ∧
         count is_connect (trace r') = 1 ∧
         retryAttempts (this (after r'))
         = js_decrement (retryAttempts (this w)) ∧
         ((retryAttempts (this w) ≤ max_exact)%Z →
          retryAttempts (this (after r'))
          = (retryAttempts (this w) - 1)%Z)) ∧
  ((retryAttempts (this w) ≤ 0)%Z →
   count is_setTimeout (trace r) = 0 ∧ quiescent (after r)).
Proof.
  intros Hrun Hcode Hstep.
  pose proof (run_coherent _ _ _ _ (coherent_constructor address options) Hrun)
    as Hc.
  pose proof (step_connects _ _ _ Hc Hstep) as Hn.
  destruct (step_fields _ _ _ Hc Hstep) as (_ & _ & Hb).
  destruct (step_inv _ _ _ Hc Hstep) as (h0 & Hs & Hlen & -> & Hr & Ht & ->).
  split; [done|]. split; [done|].
  assert (wants_retry event (set_sockets (<[h0 := CLOSED]> (sockets w)) w)
          = bool_decide (0 < retryAttempts (this w))%Z) as Hw.
  { unfold wants_retry. by rewrite (bool_decide_eq_true_2 _ Hcode). }
  rewrite handleClose_after, handleClose_trace, Hw. split.
  - intros Hpos. rewrite bool_decide_eq_true_2 by done. cbn. rewrite Ht.
    split; [done|]. split; [by destruct (listeners (this w) !! "close")|].
    eexists. split; [done|].
    rewrite retryTimer_trace, retryTimer_after. cbn.
    do 2 (split; [done|]). intros Hmax. apply js_decrement_exact. lia.
  - intros Hle. rewrite bool_decide_eq_false_2 by lia. cbn.
    split; [by destruct (listeners (this w) !! "close")|].
    split; [done|]. cbn.
    destruct Hc as (h1 & Hs1 & _ & Hold & _).
    assert (h1 = h0) as -> by congruence.
    apply Forall_lookup. intros j x Hj.
    apply lookup_lt_Some in Hj as Hlt. rewrite length_insert in Hlt.
    destruct (decide (j = h0)) as [->|Hd].
    + rewrite list_lookup_insert_eq in Hj by lia. congruence.
    + rewrite list_lookup_insert_ne in Hj by done.
      rewrite Hold in Hj by lia. congruence.
Qed.

Lemma abnormal_closure_retries_witness :
  ∃ w t0 r,
    run (after (constructor "wss://example.com"
                  (Some {[ "retryDelay" := 50%Z ]}))) [Opened 0]
      = Some (w, t0) ∧
    step w (Closed 0 (mkCloseEvent 1006 "")) = Some r ∧
    count is_connect (trace r) = 0 ∧
    retryAttempts (this (after r)) = retryAttempts (this w) ∧
    ((0 < retryAttempts (this w))%Z →
     timers (after r) = [retryDelay (this w)] ∧
     count is_setTimeout (trace r) = 1 ∧
     ∃ r', step (after r) TimerFired = Some r' ∧
           count is_connect (trace r') = 1 ∧
           retryAttempts (this (after r'))
           = js_decrement (retryAttempts (this w)) ∧
           ((retryAttempts (this w) ≤ max_exact)%Z →
            retryAttempts (this (after r'))
            = (retryAttempts (this w) - 1)%Z)) ∧
    ((retryAttempts (this w) ≤ 0)%Z →
     count is_setTimeout (trace r) = 0 ∧ quiescent (after r)).
Proof.
  eexists _, _, _. split; [vm_compute; reflexivity|].
  split; [vm_compute; reflexivity|].
  eapply (abnormal_closure_retries "wss://example.com"
            (Some {[ "retryDelay" := 50%Z ]}) [Opened 0] _ _ 0
            (mkCloseEvent 1006 "")).
  - vm_compute; reflexivity.
  - discriminate.
  - vm_compute; reflexivity.
Defined.

(** ** Exceptions *)

(** X11: for an instance that exists (its construction returned, the
    transport having accepted the address), and with callbacks that return
    normally, nothing the instance does afterwards throws: in any world
    reached from the construction every handler, the timer's closure and
    every public method return normally.  In particular [sendMessage] is
    kept by its guard from the transport's [send], which throws while the
    transport is connecting. *)
Theorem no_turn_throws address options inputs w t i r :
  run (after (constructor address options)) inputs = Some (w, t) →
  step w i = Some r →
  outcome r = inr ().
Proof.
  intros Hrun Hstep.
  pose proof (run_coherent _ _ _ _ (coherent_constructor address options) Hrun)
    as Hc.
  by eapply step_outcome.
Qed.

Lemma no_turn_throws_witness :
  ∃ w t r,
    run (after (constructor "wss://example.com" None)) [] = Some (w, t) ∧
    step w (CallSendMessage "too early") = Some r ∧
    outcome (socket_send (this w) "too early" w)
      = inl (TransportError "WebSocket is not open") ∧
    outcome r = inr ().
Proof.
  eexists _, _, _. split; [reflexivity|]. split; [reflexivity|].
  split; [reflexivity|].
  eapply (no_turn_throws "wss://example.com" None []
            _ _ (CallSendMessage "too early"));
    reflexivity.
Defined.

(** ** Sending around the opening of a transport *)

(** X12: [sendMessage] follows the transport the instance holds.  Right
    after the transport has reported [open] the message is handed to it;
    right after a retry timer has opened a new transport, which is still
    connecting, the message is dropped with the console error naming ready
    state 0, and nothing of it is kept. *)
Theorem sendMessage_follows_transport address options inputs w t0 msg :
  run (after (constructor address options)) inputs = Some (w, t0) →
  (∀ h r, step w (Opened h) = Some r →
          trace (sendMessage msg (after r)) =
            [SocketSend h msg;
             ConsoleLog ("[SocketInsight] Sent message: " +:+ msg)]) ∧
  (∀ r, step w TimerFired = Some r →
        sendMessage msg (after r) =
          mkResult (inr ()) (after r)
            [ConsoleError
               ("[SocketInsight] Cannot send message, WebSocket is not open. "
                +:+ "Current readyState: " +:+ "0")]).
Proof.
  intros Hrun.
  pose proof (run_coherent _ _ _ _ (coherent_constructor address options) Hrun)
    as Hc.
  split.
  - intros h r Hstep.
    destruct (step_inv _ _ _ Hc Hstep) as (h0 & Hs & Hlen & -> & Hr & Ht & ->).
    rewrite handleOpen_after.
    rewrite (sendMessage_result msg _ h0 OPEN); [done|done|].
    cbn. apply list_lookup_insert_eq. lia.
  - intros r Hstep.
    destruct (step_inv _ _ _ Hc Hstep) as (h0 & Hs & Hlen & Ht & Hr & Hp & ->).
    rewrite retryTimer_after. cbn.
    rewrite (sendMessage_result msg _ (length (sockets w)) CONNECTING);
      [done|done|].
    cbn. rewrite lookup_app_r by lia. by rewrite Nat.sub_diag.
Qed.

Lemma sendMessage_follows_transport_witness :
  ∃ w t0 r,
    run (after (constructor "wss://example.com" None)) [] = Some (w, t0) ∧
    step w (Opened 0) = Some r ∧
    trace (sendMessage "Hello, WebSocket!" (after r)) =
      [SocketSend 0 "Hello, WebSocket!";
       ConsoleLog ("[SocketInsight] Sent message: " +:+ "Hello, WebSocket!")].
Proof.
  eexists _, _, _. split; [reflexivity|]. split; [reflexivity|].
  eapply (sendMessage_follows_transport "wss://example.com" None []);
    reflexivity.
Defined.
